(** * splitText: measurement, word insertion, kerning compensation, line
      grouping and revert

    A shallow embedding of the core [splitText] routine (the TypeScript
    source with [measureOriginalText], [createSpan] and [splitText]) and the
    properties its specification states about it.

    Modelling conventions.
    - A JavaScript string is the list of its UTF-16 code units; [text[i]]
      is the one-unit string at offset [i].
    - A JavaScript number is the rational its double denotes. An
      arithmetic operation of the source is the exact operation followed
      by [fl], the rounding to the nearest double; [fl] is a parameter of
      the development, and [binary64] is the rounding of IEEE 754 used in
      the concrete runs. [Math.round x] is [floor (x + 1/2)]; it,
      [Math.abs], the comparisons and the differences of two rounded
      coordinates are exact. The literals 5, 20 and 100 are doubles;
      [0.01] is [fl (1 # 100)].
    - The DOM below the target element is a store of the spans the routine
      creates, addressed by allocation index, so that the arrays
      [allChars], [allWords], [allLines] and the child lists alias the same
      objects, as in the source.
    - Layout is owned by the host: the three bounding-box queries the source
      makes are parameters of the development.
    - So is HTML: reading [innerHTML] serialises the children and writing
      it parses the string; the two algorithms are parameters,
      [serialize_fragment] and [parse_fragment]. *)

From Stdlib Require Import QArith Qround Qabs Lqa.
From stdpp Require Import gmap strings list fin_maps.

Set Warnings "-register-all".
Local Open Scope nat_scope.

(** ** Strings and the original subtree *)

Definition codeunit := N.
Abbreviation jsstring := (list codeunit).

(** The markup found below the target element when [splitText] is called. *)
Inductive onode :=
| OText (data : jsstring)
| OComment (data : jsstring)
| OElem (tag : string) (attrs : list (string * jsstring)) (kids : list onode).

(** [document.createTreeWalker(element, NodeFilter.SHOW_TEXT)]: the text
    nodes of the subtree in document order. *)
Fixpoint text_nodes_of (n : onode) : list jsstring :=
  match n with
  | OText s => [s]
  | OComment _ => []
  | OElem _ _ kids => concat (map text_nodes_of kids)
  end.

Definition text_nodes (kids : list onode) : list jsstring :=
  concat (map text_nodes_of kids).

(** [element.textContent]. *)
Definition textContent (kids : list onode) : jsstring :=
  concat (text_nodes kids).

(** ** Measured words *)

Record MeasuredChar := mkMeasuredChar { char : jsstring; left : Q }.

Record MeasuredWord := mkMeasuredWord {
  chars : list MeasuredChar;
  startLeft : Q;
  noSpaceBefore : bool
}.

Definition SPACE : codeunit := 32%N.
Definition NEWLINE : codeunit := 10%N.
Definition TAB : codeunit := 9%N.
Definition EM_DASH : codeunit := 8212%N.
Definition EN_DASH : codeunit := 8211%N.

(** [const BREAK_CHARS = new Set(["—", "–"])] *)
Definition BREAK_CHARS : gset jsstring := {[ [EM_DASH]; [EN_DASH] ]}.

(** [char === " " || char === "\n" || char === "\t"] *)
Definition is_whitespace (c : codeunit) : bool :=
  (c =? SPACE)%N || (c =? NEWLINE)%N || (c =? TAB)%N.

(** The mutable locals of [measureOriginalText]. *)
Record mstate := mkMstate {
  words : list MeasuredWord;
  currentWord : list MeasuredChar;
  wordStartLeft : option Q;
  noSpaceBeforeNext : bool
}.

Definition mstate_init : mstate :=
  {| words := []; currentWord := []; wordStartLeft := None;
     noSpaceBeforeNext := false |}.

Definition pushWord (st : mstate) : mstate :=
  match currentWord st with
  | [] => st
  | _ :: _ =>
      {| words := words st ++
                  [ {| chars := currentWord st;
                       startLeft := default 0%Q (wordStartLeft st);
                       noSpaceBefore := noSpaceBeforeNext st |} ];
         currentWord := [];
         wordStartLeft := None;
         noSpaceBeforeNext := false |}
  end.

Definition set_noSpaceBeforeNext (b : bool) (st : mstate) : mstate :=
  {| words := words st; currentWord := currentWord st;
     wordStartLeft := wordStartLeft st; noSpaceBeforeNext := b |}.

Section Measure.

(** [range.getBoundingClientRect().left] for the range covering offset
    [i] of the [k]-th text node, in the unsplit render. *)
Variable range_left : nat -> nat -> Q.

(** One iteration of the inner [for] loop. *)
Definition scan_char (k i : nat) (c : codeunit) (st : mstate) : mstate :=
  if is_whitespace c then pushWord st
  else
    let l := range_left k i in
    let st1 :=
      {| words := words st;
         currentWord := currentWord st ++ [ {| char := [c]; left := l |} ];
         wordStartLeft :=
           match wordStartLeft st with
           | None => Some l
           | Some w => Some w
           end;
         noSpaceBeforeNext := noSpaceBeforeNext st |} in
    if bool_decide ([c] ∈ BREAK_CHARS)
    then set_noSpaceBeforeNext true (pushWord st1)
    else st1.

(** [for (let i = 0; i < text.length; i++)], from offset [i] on. *)
Fixpoint scan_text (k i : nat) (text : jsstring) (st : mstate) : mstate :=
  match text with
  | [] => st
  | c :: rest => scan_text k (S i) rest (scan_char k i c st)
  end.

(** [while ((node = walker.nextNode()))], from the [k]-th text node on. *)
Fixpoint scan_nodes (k : nat) (nodes : list jsstring) (st : mstate) : mstate :=
  match nodes with
  | [] => st
  | text :: rest => scan_nodes (S k) rest (scan_text k 0 text st)
  end.

Definition measureOriginalText (kids : list onode) : list MeasuredWord :=
  words (pushWord (scan_nodes 0 (text_nodes kids) mstate_init)).

End Measure.

(** The code units recorded by a measurement, in order. *)
Definition word_text (w : MeasuredWord) : jsstring :=
  concat (map char (chars w)).

Definition units_text (ws : list MeasuredWord) : jsstring :=
  concat (map word_text ws).

(** ** The element, the spans and the store *)

Inductive display_t := inline_block | block.

(** A child is either markup that was parsed or created as a value (text
    nodes, the original subtree) or a reference to a span of the store. *)
Inductive child :=
| Static (n : onode)
| Ref (id : nat).

(** A span made by [createSpan]. [dataset.expectedGap] holds the string
    [gap.toString()], which [parseFloat] reads back as the same number; the
    field keeps the number. [style_marginLeft] is in pixels. *)
Record span := mkSpan {
  className : option string;
  data_index : option nat;
  data_expectedGap : option Q;
  style_display : display_t;
  style_marginLeft : option Q;
  children : list child
}.

(** The document as far as [splitText] can see or change it: the target
    element (children, attributes, inline style), the messages written to
    the console, and the store of created spans with its allocation
    counter. *)
Record world := mkWorld {
  el_children : list child;
  el_attrs : gmap string jsstring;
  el_style : gmap string string;
  console : list string;
  heap : gmap nat span;
  next_id : nat
}.

(** The target element as [splitText] receives it. *)
Record element := mkElement {
  kids : list onode;
  attrs : gmap string jsstring;
  style : gmap string string
}.

Definition world_of (e : element) : world :=
  {| el_children := map Static (kids e);
     el_attrs := attrs e;
     el_style := style e;
     console := [];
     heap := ∅;
     next_id := 0 |}.

Definition empty_span : span :=
  {| className := None; data_index := None; data_expectedGap := None;
     style_display := inline_block; style_marginLeft := None;
     children := [] |}.

(** Dereferencing a span reference. *)
Definition span_at (w : world) (id : nat) : span :=
  default empty_span (heap w !! id).

Definition with_heap (h : gmap nat span) (w : world) : world :=
  {| el_children := el_children w; el_attrs := el_attrs w;
     el_style := el_style w; console := console w;
     heap := h; next_id := next_id w |}.

Definition with_children (cs : list child) (w : world) : world :=
  {| el_children := cs; el_attrs := el_attrs w;
     el_style := el_style w; console := console w;
     heap := heap w; next_id := next_id w |}.

Definition with_attrs (a : gmap string jsstring) (w : world) : world :=
  {| el_children := el_children w; el_attrs := a;
     el_style := el_style w; console := console w;
     heap := heap w; next_id := next_id w |}.

(** ** A state monad with exceptions

    [None] stands for a thrown [TypeError]. *)

Definition M (A : Type) : Type := world -> option (A * world).

#[global] Instance M_ret : MRet M := fun A x w => Some (x, w).
#[global] Instance M_bind : MBind M := fun A B f m w =>
  match m w with
  | Some (a, w') => f a w'
  | None => None
  end.

Definition throw {A} : M A := fun _ => None.

Definition modify (f : world -> world) : M unit := fun w => Some (tt, f w).

Definition update_span (id : nat) (f : span -> span) : M unit :=
  modify (fun w => with_heap (alter f id (heap w)) w).

(** [arr.forEach((x, i) => ...)], from index [i] on. *)
Fixpoint forEach_from {A} (f : A -> nat -> M unit) (i : nat) (l : list A) : M unit :=
  match l with
  | [] => mret tt
  | x :: rest => f x i ;; forEach_from f (S i) rest
  end.

Definition forEach {A} (f : A -> nat -> M unit) (l : list A) : M unit :=
  forEach_from f 0 l.

(** A [forEach] whose body pushes one value on a local array: the values
    pushed, in order. *)
Fixpoint collect_from {A B} (f : A -> nat -> M B) (i : nat) (l : list A) : M (list B) :=
  match l with
  | [] => mret []
  | x :: rest =>
      y ← f x i; ys ← collect_from f (S i) rest; mret (y :: ys)
  end.

Definition collect {A B} (f : A -> nat -> M B) (l : list A) : M (list B) :=
  collect_from f 0 l.

(** [for (let i = lo; i < hi; i++)], [n] iterations left. *)
Fixpoint for_from (n i : nat) (body : nat -> M unit) : M unit :=
  match n with
  | 0 => mret tt
  | S n' => body i ;; for_from n' (S i) body
  end.

Definition for_range (lo hi : nat) (body : nat -> M unit) : M unit :=
  for_from (hi - lo) lo body.

(** ** Numbers *)

Definition Qltb (x y : Q) : bool := negb (Qle_bool y x).

(** [Math.round(x)] *)
Definition Math_round (x : Q) : Z := Qfloor (x + (1 # 2)).

(** [Math.round(delta * 100) / 100]: the product and the quotient are
    rounded. *)
Definition round2 (fl : Q -> Q) (delta : Q) : Q :=
  fl (inject_Z (Math_round (fl (delta * 100))) / 100)%Q.

(** *** The rounding of IEEE 754 doubles *)

Definition pow2 (e : Z) : Q :=
  match e with
  | Z0 => 1%Q
  | Zpos p => inject_Z (2 ^ Zpos p)
  | Zneg p => (1 # (2 ^ p))%Q
  end.

(** The nearest integer, ties to even. *)
Definition round_half_even (q : Q) : Z :=
  let f := Qfloor q in
  match Qcompare (q - inject_Z f) (1 # 2) with
  | Lt => f
  | Gt => (f + 1)%Z
  | Eq => if Z.even f then f else (f + 1)%Z
  end.

(** The double nearest to [q], ties to even: a significand of 53 bits,
    exponents from -1074 (subnormal numbers included). Magnitudes past the
    largest double, which JavaScript turns into [Infinity], are outside
    the model. *)
Definition binary64 (q : Q) : Q :=
  match Qnum q with
  | Z0 => 0%Q
  | _ =>
      let a := Qabs q in
      let lg := (Z.log2 (Qnum a) - Z.log2 (Zpos (Qden a)))%Z in
      let e0 := if Qle_bool (pow2 lg) a then lg else (lg - 1)%Z in
      let e := Z.max (e0 - 52) (-1074) in
      let m := round_half_even (a / pow2 e) in
      let r := Qred (inject_Z m * pow2 e) in
      if Qle_bool 0 q then r else Qred (- r)
  end.

(** ** DOM primitives *)

Record SplitTextOptions := mkOptions {
  splitBy : option string;
  charClass : option string;
  wordClass : option string;
  lineClass : option string
}.

Definition no_options : SplitTextOptions :=
  {| splitBy := None; charClass := None; wordClass := None; lineClass := None |}.

Record SplitResult := mkSplitResult {
  res_chars : list nat;
  res_words : list nat;
  res_lines : list nat;
  revert : M unit
}.

(** The span [createSpan] returns, and its allocation in the store. *)
Definition fresh_span (cls : string) (index : option nat) (display : display_t) : span :=
  {| className := if decide (cls = "") then None else Some cls;
     data_index := index;
     data_expectedGap := None;
     style_display := display;
     style_marginLeft := None;
     children := [] |}.

Definition alloc (s : span) (w : world) : world :=
  {| el_children := el_children w; el_attrs := el_attrs w;
     el_style := el_style w; console := console w;
     heap := <[next_id w := s]> (heap w); next_id := S (next_id w) |}.

(** [createSpan(className, index, display)] *)
Definition createSpan (cls : string) (index : option nat) (display : display_t) : M nat :=
  fun w => Some (next_id w, alloc (fresh_span cls index display) w).

Definition set_children (cs : list child) (s : span) : span :=
  {| className := className s; data_index := data_index s;
     data_expectedGap := data_expectedGap s;
     style_display := style_display s;
     style_marginLeft := style_marginLeft s; children := cs |}.

Definition set_expectedGap (g : option Q) (s : span) : span :=
  {| className := className s; data_index := data_index s;
     data_expectedGap := g;
     style_display := style_display s;
     style_marginLeft := style_marginLeft s; children := children s |}.

Definition set_marginLeft (m : Q) (s : span) : span :=
  {| className := className s; data_index := data_index s;
     data_expectedGap := data_expectedGap s;
     style_display := style_display s;
     style_marginLeft := Some m; children := children s |}.

(** [span.textContent = s] *)
Definition span_set_textContent (id : nat) (s : jsstring) : M unit :=
  update_span id (set_children (match s with [] => [] | _ => [Static (OText s)] end)).

(** [parent.appendChild(c)] for a span [parent]; at every call site [c]
    is a node without a parent, so nothing has to be unlinked. *)
Definition span_appendChild (parent : nat) (c : child) : M unit :=
  update_span parent (fun s => set_children (children s ++ [c]) s).

(** [element.appendChild(c)], same remark. *)
Definition el_appendChild (c : child) : M unit :=
  modify (fun w => with_children (el_children w ++ [c]) w).

(** [element.textContent = ""] *)
Definition el_clear : M unit := modify (with_children []).

(** [element.setAttribute(name, value)] *)
Definition el_setAttribute (name : string) (value : jsstring) : M unit :=
  modify (fun w => with_attrs (<[name := value]> (el_attrs w)) w).

(** [element.removeAttribute(name)] *)
Definition el_removeAttribute (name : string) : M unit :=
  modify (fun w => with_attrs (delete name (el_attrs w)) w).

(** [element.innerHTML = html]: the children become what the string
    parses into. *)
Definition el_set_innerHTML (parse_fragment : jsstring -> list onode)
    (html : jsstring) : M unit :=
  modify (with_children (map Static (parse_fragment html))).

(** [Array.from(span.children)]: the element children. The spans built
    here hold created spans and text nodes only. *)
Definition element_children (cs : list child) : list nat :=
  omap (fun c => match c with Ref id => Some id | Static _ => None end) cs.

Definition space_node : child := Static (OText [SPACE]).

(** The separator rule of STEP 3 and STEP 6:
    [idx < arr.length - 1 && !noSpaceBeforeSet.has(arr[idx + 1])] *)
Definition wants_space (noSpaceBeforeSet : gset nat) (arr : list nat) (idx : nat) : bool :=
  (idx <? length arr - 1) &&
  negb (match arr !! (idx + 1) with
        | Some nxt => bool_decide (nxt ∈ noSpaceBeforeSet)
        | None => false
        end).

(** ** Line detection state (STEP 5) *)

Record lstate := mkLstate {
  lineGroups : list (list nat);
  currentLine : list nat;
  currentY : option Z
}.

Definition lstate_init : lstate :=
  {| lineGroups := []; currentLine := []; currentY := None |}.

(** ** splitText *)

(** What STEP 2 records for a word: its span, whether it joins
    [noSpaceBeforeSet], and its character spans. *)
Definition word_id (b : nat * bool * list nat) : nat := fst (fst b).
Definition word_flag (b : nat * bool * list nat) : bool := snd (fst b).

Section SplitText.

(** The rounding to the nearest double. *)
Variable fl : Q -> Q.
(** The HTML serialisation of a list of nodes, as [innerHTML] returns it
    for an element with these children, and the nodes a string parses
    into when it is assigned to [innerHTML] of the target element. *)
Variable serialize_fragment : list onode -> jsstring.
Variable parse_fragment : jsstring -> list onode.
(** [range.getBoundingClientRect().left] on the original text nodes. *)
Variable range_left : nat -> nat -> Q.
(** [span.getBoundingClientRect().left] and [.top] of a created span, in
    the layout of the current document. *)
Variable rect_left : world -> nat -> Q.
Variable rect_top : world -> nat -> Q.

(** STEP 2, inner callback: one character span. *)
Definition build_char (cls : string) (wordSpan : nat) (measuredWord : MeasuredWord)
    (measuredChar : MeasuredChar) (charIndex : nat) : M nat :=
  charSpan ← createSpan cls (Some charIndex) inline_block;
  span_set_textContent charSpan (char measuredChar) ;;
  (if 0 <? charIndex then
     match chars measuredWord !! (charIndex - 1) with
     | Some prev =>
         let gap := fl (left measuredChar - left prev)%Q in
         update_span charSpan (set_expectedGap (Some gap))
     | None => throw
     end
   else mret tt) ;;
  span_appendChild wordSpan (Ref charSpan) ;;
  mret charSpan.

(** STEP 2, outer callback: the word span, whether it joins
    [noSpaceBeforeSet], and the character spans pushed on [allChars]. *)
Definition build_word (charCls wordCls : string) (measuredWord : MeasuredWord)
    (wordIndex : nat) : M (nat * bool * list nat) :=
  wordSpan ← createSpan wordCls (Some wordIndex) inline_block;
  cs ← collect (build_char charCls wordSpan measuredWord) (chars measuredWord);
  mret (wordSpan, noSpaceBefore measuredWord, cs).

Definition noSpaceBeforeSet_of (built : list (nat * bool * list nat)) : gset nat :=
  foldr (fun '(wordSpan, flag, _) s => if flag : bool then {[wordSpan]} ∪ s else s)
        ∅ built.

(** STEP 3 and the inner loop of STEP 6: append the words with their
    separators. *)
Definition append_words (append : child -> M unit) (noSpaceBeforeSet : gset nat)
    (ws : list nat) : M unit :=
  forEach (fun wordSpan idx =>
             append (Ref wordSpan) ;;
             if wants_space noSpaceBeforeSet ws idx
             then append space_node
             else mret tt) ws.

(** STEP 2 and STEP 3: build the spans of every measured word, then add
    the words to the element. *)
Definition build_and_insert (charCls wordCls : string)
    (measuredWords : list MeasuredWord) : M (list (nat * bool * list nat)) :=
  built ← collect (build_word charCls wordCls) measuredWords;
  append_words el_appendChild (noSpaceBeforeSet_of built) (map word_id built) ;;
  mret built.

(** STEP 4: [originalGap - (positions[i] - positions[i - 1])]. [None]
    stands for the [NaN] that an out-of-range read would produce. *)
Definition kern_delta (positions : list Q) (i : nat) (originalGap : Q) : option Q :=
  match positions !! i, positions !! (i - 1) with
  | Some p, Some q => Some (fl (originalGap - fl (p - q)))%Q
  | _, _ => None
  end.

(** STEP 4, body of the [for] loop. *)
Definition kern_char (cs : list nat) (positions : list Q) (i : nat) : M unit :=
  match cs !! i with
  | None => throw
  | Some charSpan =>
      fun w =>
        match data_expectedGap (span_at w charSpan) with
        | None => Some (tt, w)
        | Some originalGap =>
            ((match kern_delta positions i originalGap with
              | Some delta =>
                  if Qltb (Qabs delta) 20
                  then update_span charSpan (set_marginLeft (round2 fl delta))
                  else mret tt
              | None => mret tt
              end) ;;
             update_span charSpan (set_expectedGap None)) w
        end
  end.

(** STEP 4, callback of [allWords.forEach]. *)
Definition compensate_word (wordSpan : nat) : M unit :=
  fun w =>
    let cs := element_children (children (span_at w wordSpan)) in
    if length cs <? 2 then Some (tt, w)
    else
      let positions := map (rect_left w) cs in
      for_range 1 (length cs) (kern_char cs positions) w.

(** STEP 5, callback of [allWords.forEach]. *)
Definition detect_step (w : world) (st : lstate) (wordSpan : nat) : lstate :=
  let wordY := Math_round (rect_top w wordSpan) in
  match currentY st with
  | None =>
      {| lineGroups := lineGroups st;
         currentLine := currentLine st ++ [wordSpan];
         currentY := Some wordY |}
  | Some y =>
      if (Z.abs (wordY - y) <? 5)%Z
      then {| lineGroups := lineGroups st;
              currentLine := currentLine st ++ [wordSpan];
              currentY := currentY st |}
      else {| lineGroups := lineGroups st ++ [currentLine st];
              currentLine := [wordSpan];
              currentY := Some wordY |}
  end.

Definition detect_lines (w : world) (allWords : list nat) : list (list nat) :=
  let st := fold_left (detect_step w) allWords lstate_init in
  match currentLine st with
  | [] => lineGroups st
  | _ :: _ => lineGroups st ++ [currentLine st]
  end.

(** STEP 6, callback of [lineGroups.forEach]. *)
Definition wrap_line (lineCls : string) (noSpaceBeforeSet : gset nat)
    (ws : list nat) (lineIndex : nat) : M nat :=
  lineSpan ← createSpan lineCls (Some lineIndex) block;
  append_words (span_appendChild lineSpan) noSpaceBeforeSet ws ;;
  el_appendChild (Ref lineSpan) ;;
  mret lineSpan.

(** The function returned as [revert]. *)
Definition make_revert (originalHTML : jsstring) : M unit :=
  el_set_innerHTML parse_fragment originalHTML ;;
  el_removeAttribute "aria-label".

(** STEP 1 to STEP 6 and the returned handle: everything after the
    [aria-label] assignment. [subtree] is what the element holds at that
    point, [originalHTML] the snapshot taken at entry. *)
Definition split_steps (subtree : list onode) (originalHTML : jsstring)
    (opts : SplitTextOptions) : M SplitResult :=
  let charCls := default "split-char" (charClass opts) in
  let wordCls := default "split-word" (wordClass opts) in
  let lineCls := default "split-line" (lineClass opts) in
  let measuredWords := measureOriginalText range_left subtree in
  el_clear ;;
  built ← build_and_insert charCls wordCls measuredWords;
  let allWords := map word_id built in
  let allChars := concat (map snd built) in
  let noSpaceBeforeSet := noSpaceBeforeSet_of built in
  forEach (fun wordSpan _ => compensate_word wordSpan) allWords ;;
  groups ← (fun w => Some (detect_lines w allWords, w));
  el_clear ;;
  allLines ← collect (wrap_line lineCls noSpaceBeforeSet) groups;
  mret {| res_chars := allChars; res_words := allWords;
          res_lines := allLines; revert := make_revert originalHTML |}.

Definition splitText_body (subtree : list onode) (opts : SplitTextOptions)
    : M SplitResult :=
  let originalHTML := serialize_fragment subtree in
  let text := textContent subtree in
  el_setAttribute "aria-label" text ;;
  split_steps subtree originalHTML opts.

Definition splitText (e : element) (opts : SplitTextOptions)
    : option (SplitResult * world) :=
  splitText_body (kids e) opts (world_of e).

End SplitText.

(** The effect of one iteration of the kerning loop on the character span
    it visits. *)
Definition kern_span (fl : Q -> Q) (positions : list Q) (i : nat) (s : span) : span :=
  match data_expectedGap s with
  | None => s
  | Some originalGap =>
      set_expectedGap None
        (match kern_delta fl positions i originalGap with
         | Some delta =>
             if Qltb (Qabs delta) 20 then set_marginLeft (round2 fl delta) s else s
         | None => s
         end)
  end.

(** ** Specification-side notions *)

(** The text with the three whitespace characters removed. *)
Definition strip_whitespace (t : jsstring) : jsstring :=
  filter (fun c => is_whitespace c = false) t.

(** What a measurement state has recorded so far. *)
Definition emitted (st : mstate) : jsstring :=
  units_text (words st) ++ concat (map char (currentWord st)).

(** What the loops of STEP 3 and STEP 6 append: the words, with a space
    text node after each word that has a successor outside
    [noSpaceBeforeSet]. *)
Fixpoint interleave (noSpaceBeforeSet : gset nat) (ws : list nat) : list child :=
  match ws with
  | [] => []
  | x :: rest =>
      Ref x ::
      match rest with
      | [] => []
      | y :: _ =>
          (if bool_decide (y ∈ noSpaceBeforeSet) then [] else [space_node]) ++
          interleave noSpaceBeforeSet rest
      end
  end.

(** The rule as the specification words it, on the words' own flags:
    words interleaved with literal spaces, the separator omitted before
    any [noSpaceBefore] word. *)
Fixpoint interleave_flagged (ws : list (nat * bool)) : list child :=
  match ws with
  | [] => []
  | (x, _) :: rest =>
      Ref x ::
      match rest with
      | [] => []
      | (_, nsb) :: _ =>
          (if nsb : bool then [] else [space_node]) ++ interleave_flagged rest
      end
  end.

(** The word spans that are children of a line span. *)
Definition line_words (w : world) (lineSpan : nat) : list nat :=
  element_children (children (span_at w lineSpan)).


(** The effect of appending to the element and to a span. *)
Definition el_append_all (cs : list child) (w : world) : world :=
  with_children (el_children w ++ cs) w.

Definition span_append_all (id : nat) (cs : list child) (w : world) : world :=
  with_heap (alter (fun s => set_children (children s ++ cs) s) id (heap w)) w.

(** [wp m Q w]: run from [w], [m] returns normally and [Q] holds of its
    value and final world. *)
Definition wp {A} (m : M A) (Q : A -> world -> Prop) (w : world) : Prop :=
  match m w with
  | Some (a, w') => Q a w'
  | None => False
  end.

(** What no step of a split changes once the [aria-label] is set, and the
    direction in which the allocation counter moves. *)
Definition ext (w w' : world) : Prop :=
  el_attrs w' = el_attrs w /\ el_style w' = el_style w /\
  console w' = console w /\ next_id w <= next_id w'.

(** Every unit recorded so far is a single code unit. *)
Definition single_units (cs : list MeasuredChar) : Prop :=
  Forall (fun mc => length (char mc) = 1) cs.

Definition all_single (st : mstate) : Prop :=
  Forall (fun w => single_units (chars w)) (words st) /\
  single_units (currentWord st).

(** What holds of the handle and of the document when [splitText]
    returns. *)
Definition split_post (serialize_fragment : list onode -> jsstring)
    (parse_fragment : jsstring -> list onode)
    (e : element) (r : SplitResult) (w : world) : Prop :=
  revert r = make_revert parse_fragment (serialize_fragment (kids e)) /\
  el_attrs w = (<["aria-label" := textContent (kids e)]> (attrs e)) /\
  el_style w = style e /\
  console w = [] /\
  el_children w = map Ref (res_lines r) /\
  NoDup (res_words r) /\
  exists (first : nat) (s : gset nat) (groups : list (list nat)),
    concat groups = res_words r /\
    res_lines r = seq first (length groups) /\
    forall k g, groups !! k = Some g ->
      children (span_at w (first + k)) = interleave s g.

(** ** Concrete inputs used by the examples *)

(** "Hello 👨‍👩‍👦 World 🎉✨" in UTF-16; the family emoji takes the eight
    units from the first [55357] to [56422]. *)
Definition hello_family : jsstring :=
  [72; 101; 108; 108; 111; 32;
   55357; 56424; 8205; 55357; 56425; 8205; 55357; 56422; 32;
   87; 111; 114; 108; 100; 32;
   55356; 57225; 10024]%N.

(** A monospace layout: ten units per character. *)
Definition mono_left : nat -> nat -> Q := fun _ i => inject_Z (Z.of_nat i * 10).

(** After the split every span sits eleven units after the one created
    before it. *)
Definition even_left : world -> nat -> Q :=
  fun _ id => inject_Z (Z.of_nat id * 11).

(** The first span has its top at 0, every other span at 20. *)
Definition tops_0_20 : world -> nat -> Q :=
  fun _ id => if decide (id = 0) then 0%Q else 20%Q.

Definition flat_top : world -> nat -> Q := fun _ _ => 0%Q.

(** HTML on plain text. For children that are text nodes free of [<],
    [>], [&] and no-break spaces the serialisation is the text itself; a
    string free of [<], [&] and NUL parses into one text node holding the
    string with its line breaks normalised (CR LF and CR become LF), or
    into nothing when the string is empty. [text_markup] and [parse_text]
    are the two algorithms on such markup, for a target element such as a
    [div] or a heading; they say nothing about other markup. *)
Definition CR : codeunit := 13%N.

Fixpoint normalize_newlines (s : jsstring) : jsstring :=
  match s with
  | [] => []
  | c :: rest =>
      if (c =? CR)%N then
        NEWLINE ::
        match rest with
        | c' :: rest' =>
            if (c' =? NEWLINE)%N then normalize_newlines rest'
            else normalize_newlines rest
        | [] => []
        end
      else c :: normalize_newlines rest
  end.

Definition text_markup (subtree : list onode) : jsstring := textContent subtree.

Definition parse_text (html : jsstring) : list onode :=
  match normalize_newlines html with
  | [] => []
  | t => [OText t]
  end.

(** The tolerance as the specification words it:
    [max(5, activeFontSizeInPixels * 0.3)]. *)
Definition spec_tolerance (fontSize : Q) : Q :=
  let t := (fontSize * (3 # 10))%Q in
  if Qle_bool 5 t then t else 5%Q.

(** A word span with three character spans; the second was 10 units and
    the third 40 units after its predecessor in the original render. *)
Definition kern_world : world :=
  let ch (i : nat) (g : option Q) (c : codeunit) :=
    {| className := Some "split-char"; data_index := Some i;
       data_expectedGap := g; style_display := inline_block;
       style_marginLeft := None; children := [Static (OText [c])] |} in
  {| el_children := [Ref 0];
     el_attrs := ∅; el_style := ∅; console := [];
     heap :=
       <[0 := {| className := Some "split-word"; data_index := Some 0;
                 data_expectedGap := None; style_display := inline_block;
                 style_marginLeft := None;
                 children := [Ref 1; Ref 2; Ref 3] |}]>
       (<[1 := ch 0 None 65%N]>
       (<[2 := ch 1 (Some 10%Q) 86%N]>
       (<[3 := ch 2 (Some 40%Q) 65%N]> ∅)));
     next_id := 4 |}.

(** A word span with two character spans, the second annotated with the
    gap [g]; and a layout that puts them at 0 and at the double 0.4. *)
Definition gap_world (g : Q) : world :=
  let ch (i : nat) (g : option Q) (c : codeunit) :=
    {| className := Some "split-char"; data_index := Some i;
       data_expectedGap := g; style_display := inline_block;
       style_marginLeft := None; children := [Static (OText [c])] |} in
  {| el_children := [Ref 0];
     el_attrs := ∅; el_style := ∅; console := [];
     heap :=
       <[0 := {| className := Some "split-word"; data_index := Some 0;
                 data_expectedGap := None; style_display := inline_block;
                 style_marginLeft := None;
                 children := [Ref 1; Ref 2] |}]>
       (<[1 := ch 0 None 65%N]>
       (<[2 := ch 1 (Some g) 86%N]> ∅));
     next_id := 3 |}.

Definition near_left : world -> nat -> Q :=
  fun _ id => if decide (id = 2) then binary64 (4 # 10) else 0%Q.

Definition plain (t : jsstring) : element :=
  {| kids := [OText t]; attrs := ∅; style := ∅ |}.

(** An element holding one space, labelled by its author. *)
Definition labelled_blank : element :=
  {| kids := [OText [SPACE]];
     attrs := {[ "aria-label" := [72; 105]%N ]};
     style := ∅ |}.

(** ** Further notions on measurements *)

(** The last recorded unit of a word is a break character. *)
Definition ends_with_break (w : MeasuredWord) : bool :=
  match last (chars w) with
  | Some mc => bool_decide (char mc ∈ BREAK_CHARS)
  | None => false
  end.

(** A word has a first unit, starts where that unit starts, and holds a
    break character in its last place only. *)
Definition word_shape_ok (w : MeasuredWord) : Prop :=
  (exists mc, head (chars w) = Some mc /\ startLeft w = left mc) /\
  forall i mc, chars w !! i = Some mc -> char mc ∈ BREAK_CHARS ->
    S i = length (chars w).

(** The first word is not flagged, and a later word is flagged exactly
    when the word before it ends with a break character. *)
Definition flags_chain (ws : list MeasuredWord) : Prop :=
  (forall w, head ws = Some w -> noSpaceBefore w = false) /\
  forall j w1 w2, ws !! j = Some w1 -> ws !! S j = Some w2 ->
    noSpaceBefore w2 = ends_with_break w1.

(** What the loop of [measureOriginalText] keeps true of its locals. *)
Definition measure_inv (st : mstate) : Prop :=
  Forall word_shape_ok (words st) /\
  flags_chain (words st) /\
  noSpaceBeforeNext st = from_option ends_with_break false (last (words st)) /\
  wordStartLeft st = left <$> head (currentWord st) /\
  Forall (fun mc => char mc ∉ BREAK_CHARS) (currentWord st).

(** The units a text node shows, each with the left edge of its own range:
    offset [i] of node [k] for every character that is not whitespace. *)
Fixpoint visible_of_text (range_left : nat -> nat -> Q) (k i : nat)
    (text : jsstring) : list MeasuredChar :=
  match text with
  | [] => []
  | c :: rest =>
      (if is_whitespace c then [] else [ {| char := [c]; left := range_left k i |} ]) ++
      visible_of_text range_left k (S i) rest
  end.

Fixpoint visible_of_nodes (range_left : nat -> nat -> Q) (k : nat)
    (nodes : list jsstring) : list MeasuredChar :=
  match nodes with
  | [] => []
  | text :: rest =>
      visible_of_text range_left k 0 text ++ visible_of_nodes range_left (S k) rest
  end.

(** All units a measurement state holds, in order. *)
Definition recorded (st : mstate) : list MeasuredChar :=
  concat (map chars (words st)) ++ currentWord st.

(** ** Further notions on line detection *)

Section LineNotions.

Variable rect_top : world -> nat -> Q.
Variable w : world.

(** [Math.round(wordSpan.getBoundingClientRect().top)] *)
Definition rounded_top (wordSpan : nat) : Z := Math_round (rect_top w wordSpan).

(** A line has a first word, and every other word of it is less than 5
    away from that first word. *)
Definition line_ok (g : list nat) : Prop :=
  match g with
  | [] => False
  | x :: rest =>
      Forall (fun y => (Z.abs (rounded_top y - rounded_top x) < 5)%Z) rest
  end.

(** The first words of two consecutive lines are at least 5 apart. *)
Definition lines_apart (gs : list (list nat)) : Prop :=
  forall j g1 g2 x1 x2,
    gs !! j = Some g1 -> gs !! S j = Some g2 ->
    head g1 = Some x1 -> head g2 = Some x2 ->
    (5 <= Z.abs (rounded_top x2 - rounded_top x1))%Z.

(** The groups a detection state stands for. *)
Definition all_groups (st : lstate) : list (list nat) :=
  lineGroups st ++
  match currentLine st with
  | [] => []
  | _ :: _ => [currentLine st]
  end.

Definition detect_inv (st : lstate) : Prop :=
  Forall line_ok (all_groups st) /\
  lines_apart (all_groups st) /\
  currentY st = rounded_top <$> head (currentLine st) /\
  (currentLine st = [] -> lineGroups st = []).

End LineNotions.

(** ** The spans a split is expected to build *)

(** [span.textContent = s] leaves one text node, or none for the empty
    string. *)
Definition text_child (s : jsstring) : list child :=
  match s with
  | [] => []
  | _ :: _ => [Static (OText s)]
  end.

(** The gap STEP 2 writes on the character at index [i] of a word. *)
Definition char_gap (fl : Q -> Q) (mw : MeasuredWord) (i : nat) (mc : MeasuredChar)
    : option Q :=
  if 0 <? i then
    match chars mw !! (i - 1) with
    | Some prev => Some (fl (left mc - left prev))%Q
    | None => None
    end
  else None.

Definition char_span (fl : Q -> Q) (cls : string) (mw : MeasuredWord) (i : nat)
    (mc : MeasuredChar) : span :=
  set_expectedGap (char_gap fl mw i mc)
    (set_children (text_child (char mc)) (fresh_span cls (Some i) inline_block)).

Definition word_span (cls : string) (j : nat) (charSpans : list nat) : span :=
  set_children (map Ref charSpans) (fresh_span cls (Some j) inline_block).

Definition line_span (cls : string) (k : nat) (cs : list child) : span :=
  set_children cs (fresh_span cls (Some k) block).

(** What kerning compensation never touches in a span. *)
Definition shape (s : span) : option string * option nat * display_t * list child :=
  (className s, data_index s, style_display s, children s).

(** A margin is absent or is the rounding of a delta below the bound. *)
Definition margin_ok (fl : Q -> Q) (s : span) : Prop :=
  style_marginLeft s = None \/
  exists delta, (Qabs delta < 20)%Q /\ style_marginLeft s = Some (round2 fl delta).

(** How a span may differ after kerning compensation. *)
Definition kerned (fl : Q -> Q) (s s' : span) : Prop :=
  shape s' = shape s /\
  (margin_ok fl s -> margin_ok fl s') /\
  (data_expectedGap s = None -> s' = s).

(** The spans of STEP 2 are allocated one after the other: a word takes
    the next free index and its characters the indices after it. *)
Fixpoint built_from (n : nat) (mws : list MeasuredWord) : list (nat * bool * list nat) :=
  match mws with
  | [] => []
  | mw :: rest =>
      (n, noSpaceBefore mw, seq (S n) (length (chars mw))) ::
      built_from (S n + length (chars mw)) rest
  end.

Fixpoint next_after (n : nat) (mws : list MeasuredWord) : nat :=
  match mws with
  | [] => n
  | mw :: rest => next_after (S n + length (chars mw)) rest
  end.

(** The store holds the word and character spans of [mws], the first word
    being number [j] and sitting at index [n]. *)
Fixpoint built_heap_ok (fl : Q -> Q) (cc wc : string) (j n : nat)
    (mws : list MeasuredWord) (h : gmap nat span) : Prop :=
  match mws with
  | [] => True
  | mw :: rest =>
      h !! n = Some (word_span wc j (seq (S n) (length (chars mw)))) /\
      (forall i mc, chars mw !! i = Some mc ->
         h !! (S n + i) = Some (char_span fl cc mw i mc)) /\
      built_heap_ok fl cc wc (S j) (S n + length (chars mw)) rest h
  end.

(** The indices of the character spans that carry an expected gap. *)
Fixpoint gapped_ids (n : nat) (mws : list MeasuredWord) (id : nat) : Prop :=
  match mws with
  | [] => False
  | mw :: rest =>
      (S n + 1 <= id < S n + length (chars mw)) \/
      gapped_ids (S n + length (chars mw)) rest id
  end.

(** Every word span still has its character spans as children. *)
Fixpoint words_children (n : nat) (mws : list MeasuredWord) (w : world) : Prop :=
  match mws with
  | [] => True
  | mw :: rest =>
      children (span_at w n) = map Ref (seq (S n) (length (chars mw))) /\
      words_children (S n + length (chars mw)) rest w
  end.

(** What [splitText] leaves behind, span by span. [w5] is the document in
    which the lines were detected, before STEP 6 re-wrapped the words. *)
Definition split_exact (fl : Q -> Q) (cc wc lc : string) (mws : list MeasuredWord)
    (lines_of : world -> list nat -> list (list nat))
    (e : element) (r : SplitResult) (w5 w : world) : Prop :=
  let built := built_from 0 mws in
  let groups := lines_of w5 (map word_id built) in
  res_words r = map word_id built /\
  res_chars r = concat (map snd built) /\
  res_lines r = seq (next_after 0 mws) (length groups) /\
  next_id w5 = next_after 0 mws /\
  next_id w = next_after 0 mws + length groups /\
  el_children w = map Ref (res_lines r) /\
  (exists h2,
     built_heap_ok fl cc wc 0 0 mws h2 /\
     (forall id, next_after 0 mws <= id -> h2 !! id = None) /\
     forall id, kerned fl (default empty_span (h2 !! id)) (span_at w5 id)) /\
  (forall id, data_expectedGap (span_at w5 id) = None) /\
  (forall k g, groups !! k = Some g ->
     heap w !! (next_after 0 mws + k) =
     Some (line_span lc k (interleave (noSpaceBeforeSet_of built) g))) /\
  (forall id, (id < next_after 0 mws \/ next_after 0 mws + length groups <= id) ->
     heap w !! id = heap w5 !! id).

(** In the final document every word span holds its character spans and
    every character span its one text node. *)
Fixpoint final_words_ok (n : nat) (mws : list MeasuredWord) (w : world) : Prop :=
  match mws with
  | [] => True
  | mw :: rest =>
      children (span_at w n) = map Ref (seq (S n) (length (chars mw))) /\
      (forall i mc, chars mw !! i = Some mc ->
         children (span_at w (S n + i)) = text_child (char mc)) /\
      final_words_ok (S n + length (chars mw)) rest w
  end.

(** ** The text of the split document *)

(** [textContent] of a child, reading spans from the store. [fuel] bounds
    the depth of spans below the child; a split nests three deep. *)
Fixpoint child_text (fuel : nat) (w : world) (c : child) : jsstring :=
  match c with
  | Static n => concat (text_nodes_of n)
  | Ref id =>
      match fuel with
      | 0 => []
      | S fuel' => concat (map (child_text fuel' w) (children (span_at w id)))
      end
  end.

(** [element.textContent] of the target element. *)
Definition el_textContent (fuel : nat) (w : world) : jsstring :=
  concat (map (child_text fuel w) (el_children w)).

(** ** The kerning measurements of the benchmark *)

(** The hidden span (or canvas) a measurement works with: whether it is a
    child of the element, and its text. *)
Record measurer := mkMeasurer {
  attached : bool;
  measurer_text : jsstring
}.

(** [document.createElement("span")] *)
Definition new_measurer : measurer := {| attached := false; measurer_text := [] |}.

Definition set_text (s : jsstring) (m : measurer) : measurer :=
  {| attached := attached m; measurer_text := s |}.

(** [element.appendChild(measurer)] *)
Definition attach (m : measurer) : measurer :=
  {| attached := true; measurer_text := measurer_text m |}.

(** [element.removeChild(measurer)], which throws when the measurer is not
    a child. *)
Definition detach (m : measurer) : option measurer :=
  if attached m then Some {| attached := false; measurer_text := measurer_text m |}
  else None.

(** [for (let i = lo; ...; i++)] over a state, [n] iterations left; [None]
    is a thrown exception. *)
Fixpoint loop_from {St : Type} (n i : nat) (body : nat -> St -> option St) (s : St) : option St :=
  match n with
  | 0 => Some s
  | S n' =>
      match body i s with
      | Some s' => loop_from n' (S i) body s'
      | None => None
      end
  end.

(** [if (Math.abs(kerning) > 0.01) kerningMap.set(i + 1, kerning)]; the
    literal is the double nearest to a hundredth. *)
Definition record_kerning (fl : Q -> Q) (i : nat) (kerning : Q) (kerningMap : gmap nat Q)
    : gmap nat Q :=
  if Qltb (fl (1 # 100)) (Qabs kerning) then <[i + 1 := kerning]> kerningMap
  else kerningMap.

(** [new Set(chars)] in iteration order: first occurrences, in order. *)
Fixpoint unique_from (seen : gset jsstring) (l : list jsstring) : list jsstring :=
  match l with
  | [] => []
  | c :: rest =>
      if decide (c ∈ seen) then unique_from seen rest
      else c :: unique_from ({[c]} ∪ seen) rest
  end.

Section Bench.

(** The rounding to the nearest double. *)
Variable fl : Q -> Q.

(** [measurer.getBoundingClientRect().width] of an attached measurer
    showing a text, in the element's font. *)
Variable dom_width : jsstring -> Q.

(** A span that is not in the document has no box. *)
Definition measured_width (m : measurer) : Q :=
  if attached m then dom_width (measurer_text m) else 0%Q.

(** The body of the loop of [measureKerningDOMSequential] (and of
    [measureKerningDOM]). The reads of [chars] are in range. *)
Definition sequential_step (chars : list jsstring) (i : nat)
    (st : gmap nat Q * measurer) : option (gmap nat Q * measurer) :=
  let '(kerningMap, m) := st in
  match chars !! i, chars !! (i + 1) with
  | Some char1, Some char2 =>
      let pair := char1 ++ char2 in
      let m := set_text pair m in
      let pairWidth := measured_width m in
      let m := set_text char1 m in
      let char1Width := measured_width m in
      let m := set_text char2 m in
      let char2Width := measured_width m in
      let kerning := fl (fl (pairWidth - char1Width) - char2Width)%Q in
      Some (record_kerning fl i kerning kerningMap, m)
  | _, _ => None
  end.

Definition measureKerningDOMSequential (chars : list jsstring)
    : option (gmap nat Q * measurer) :=
  if length chars <? 2 then Some (∅, new_measurer)
  else
    let m := attach new_measurer in
    match loop_from (length chars - 1) 0 (sequential_step chars) (∅, m) with
    | Some (kerningMap, m) =>
        match detach m with
        | Some m => Some (kerningMap, m)
        | None => None
        end
    | None => None
    end.

(** Phase 1 of [measureKerningDOMOptimized]: one measurement per distinct
    character. *)
Definition measure_unique (st : gmap jsstring Q * measurer) (c : jsstring)
    : gmap jsstring Q * measurer :=
  let '(charWidths, m) := st in
  let m := set_text c m in
  (<[c := measured_width m]> charWidths, m).

(** Phase 2: the pairs. A width missing from [charWidths] would make the
    kerning [NaN], which is never recorded. *)
Definition optimized_step (chars : list jsstring) (charWidths : gmap jsstring Q)
    (i : nat) (st : gmap nat Q * measurer) : option (gmap nat Q * measurer) :=
  let '(kerningMap, m) := st in
  match chars !! i, chars !! (i + 1) with
  | Some char1, Some char2 =>
      let m := set_text (char1 ++ char2) m in
      let pairWidth := measured_width m in
      match charWidths !! char1, charWidths !! char2 with
      | Some char1Width, Some char2Width =>
          let kerning := fl (fl (pairWidth - char1Width) - char2Width)%Q in
          Some (record_kerning fl i kerning kerningMap, m)
      | _, _ => Some (kerningMap, m)
      end
  | _, _ => None
  end.

Definition measureKerningDOMOptimized (chars : list jsstring)
    : option (gmap nat Q * measurer) :=
  if length chars <? 2 then Some (∅, new_measurer)
  else
    let m := attach new_measurer in
    let uniqueChars := unique_from ∅ chars in
    let '(charWidths, m) := fold_left measure_unique uniqueChars (∅, m) in
    match loop_from (length chars - 1) 0 (optimized_step chars charWidths) (∅, m) with
    | Some (kerningMap, m) =>
        match detach m with
        | Some m => Some (kerningMap, m)
        | None => None
        end
    | None => None
    end.

(** [ctx.measureText(s).width], for the 2D context that [getContext]
    is asserted to give. *)
Variable canvas_width : jsstring -> Q.

Definition canvas_step (chars : list jsstring) (i : nat) (kerningMap : gmap nat Q)
    : option (gmap nat Q) :=
  match chars !! i, chars !! (i + 1) with
  | Some char1, Some char2 =>
      let pair := char1 ++ char2 in
      let pairWidth := canvas_width pair in
      let char1Width := canvas_width char1 in
      let char2Width := canvas_width char2 in
      let kerning := fl (fl (pairWidth - char1Width) - char2Width)%Q in
      Some (record_kerning fl i kerning kerningMap)
  | _, _ => None
  end.

Definition measureKerningCanvas (chars : list jsstring) : option (gmap nat Q) :=
  if length chars <? 2 then Some ∅
  else loop_from (length chars - 1) 0 (canvas_step chars) ∅.

End Bench.

(** The entry a pair leaves in the kerning map: the kerning of
    [chars[i]] and [chars[i + 1]] when it exceeds a hundredth. *)
Definition kerning_at (fl : Q -> Q) (width : jsstring -> Q) (chars : list jsstring)
    (i : nat) : option Q :=
  match chars !! i, chars !! (i + 1) with
  | Some char1, Some char2 =>
      let kerning := fl (fl (width (char1 ++ char2) - width char1) - width char2)%Q in
      if Qltb (fl (1 # 100)) (Qabs kerning) then Some kerning else None
  | _, _ => None
  end.

(** A kerning map that holds, for the pairs before [j], the entry each
    leaves, and nothing else. *)
Definition entries_upto (entry : nat -> option Q) (j : nat) (kerningMap : gmap nat Q) : Prop :=
  forall k, kerningMap !! k =
    match k with
    | 0 => None
    | S i => if i <? j then entry i else None
    end.

Definition kerning_upto (fl : Q -> Q) (width : jsstring -> Q) (chars : list jsstring)
    : nat -> gmap nat Q -> Prop :=
  entries_upto (kerning_at fl width chars).

Section BenchRange.

(** The rounding to the nearest double. *)
Variable fl : Q -> Q.

(** [range.getBoundingClientRect()] of the range between two offsets of
    the wrapper's text node, while the wrapper is in the element. *)
Variable range_rect_left range_rect_right : nat -> nat -> Q.

(** The rectangle of a range in a wrapper that is not in the document is
    all zero. *)
Definition rect_left_of (wrapper : measurer) (s e : nat) : Q :=
  if attached wrapper then range_rect_left s e else 0%Q.

Definition rect_right_of (wrapper : measurer) (s e : nat) : Q :=
  if attached wrapper then range_rect_right s e else 0%Q.

(** The loop of [measureKerningRange] of the benchmark page; the state is
    the map and [offset]. *)
Definition range_step (chars : list jsstring) (wrapper : measurer) (i : nat)
    (st : gmap nat Q * nat) : option (gmap nat Q * nat) :=
  let '(kerningMap, offset) := st in
  match chars !! i, chars !! (i + 1) with
  | Some char1, Some char2 =>
      let char1Right := rect_right_of wrapper offset (offset + length char1) in
      let char2Left :=
        rect_left_of wrapper (offset + length char1)
          (offset + length char1 + length char2) in
      let kerning := fl (char2Left - char1Right)%Q in
      Some (record_kerning fl i kerning kerningMap, offset + length char1)
  | _, _ => None
  end.

Definition measureKerningRange (chars : list jsstring) : option (gmap nat Q * measurer) :=
  if length chars <? 2 then Some (∅, new_measurer)
  else
    let wrapper := attach (set_text (concat chars) new_measurer) in
    match loop_from (length chars - 1) 0 (range_step chars wrapper) (∅, 0) with
    | Some (kerningMap, _) =>
        match detach wrapper with
        | Some wrapper => Some (kerningMap, wrapper)
        | None => None
        end
    | None => None
    end.

(** The first loop of [measureKerningRange] of [kerning.bench.ts]: the
    left edge of every character. *)
Definition positions_step (chars : list jsstring) (wrapper : measurer) (i : nat)
    (st : list Q * nat) : option (list Q * nat) :=
  let '(positions, offset) := st in
  match chars !! i with
  | Some c =>
      Some (positions ++ [rect_left_of wrapper offset (offset + length c)],
            offset + length c)
  | None => None
  end.

(** Its second loop. A position that is missing would make the kerning
    [NaN], which is never recorded. *)
Definition prefix_step (chars : list jsstring) (wrapper : measurer) (positions : list Q)
    (i : nat) (kerningMap : gmap nat Q) : option (gmap nat Q) :=
  let charEndX := rect_right_of wrapper 0 (length (concat (take (i + 1) chars))) in
  match positions !! (i + 1) with
  | Some actualNextX =>
      let kerning := fl (actualNextX - charEndX)%Q in
      Some (record_kerning fl i kerning kerningMap)
  | None => Some kerningMap
  end.

Definition measureKerningRange_prefix (chars : list jsstring)
    : option (gmap nat Q * measurer) :=
  if length chars <? 2 then Some (∅, new_measurer)
  else
    let wrapper := attach (set_text (concat chars) new_measurer) in
    match loop_from (length chars) 0 (positions_step chars wrapper) ([], 0) with
    | Some (positions, _) =>
        match loop_from (length chars - 1) 0 (prefix_step chars wrapper positions) ∅ with
        | Some kerningMap =>
            match detach wrapper with
            | Some wrapper => Some (kerningMap, wrapper)
            | None => None
            end
        | None => None
        end
    | None => None
    end.

(** The offset of [chars[i]] in the joined text. *)
Definition offset_of (chars : list jsstring) (i : nat) : nat :=
  length (concat (take i chars)).

(** The entry a pair leaves in the map of [measureKerningRange]: the gap
    between the right edge of [chars[i]] and the left edge of
    [chars[i + 1]]. *)
Definition gap_at (chars : list jsstring) (i : nat) : option Q :=
  match chars !! i, chars !! (i + 1) with
  | Some char1, Some char2 =>
      let kerning :=
        fl (range_rect_left (offset_of chars (i + 1)) (offset_of chars (i + 1) + length char2)
            - range_rect_right (offset_of chars i) (offset_of chars i + length char1))%Q in
      if Qltb (fl (1 # 100)) (Qabs kerning) then Some kerning else None
  | _, _ => None
  end.

End BenchRange.

(** ** The viewport observer of the React component *)

(** [InViewOptions] *)
Record InViewOptions := mkInViewOptions {
  amount : option Q;
  margin : option string;
  once : option bool
}.

(** The [inView] prop: [boolean | InViewOptions]. *)
Inductive inViewProp :=
| InViewFlag (b : bool)
| InViewObject (o : InViewOptions).

(** What the observer's callback reads and writes: [hasTriggeredOnceRef]
    and the [isInView] state. *)
Record view_state := mkViewState {
  hasTriggeredOnce : bool;
  isInView : bool
}.

Definition view_init : view_state :=
  {| hasTriggeredOnce := false; isInView := false |}.

(** [typeof inViewRef.current === "object" && inViewRef.current.once] *)
Definition isOnce (inView : option inViewProp) : bool :=
  match inView with
  | Some (InViewObject o) => default false (once o)
  | _ => false
  end.

(** The callback given to [IntersectionObserver]; an entry is its
    [isIntersecting]. *)
Definition observer_callback (inView : option inViewProp) (entries : list bool)
    (st : view_state) : view_state :=
  match entries with
  | [] => st
  | isIntersecting :: _ =>
      if isIntersecting then
        if isOnce inView && hasTriggeredOnce st then st
        else {| hasTriggeredOnce := true; isInView := true |}
      else
        if negb (isOnce inView)
        then {| hasTriggeredOnce := hasTriggeredOnce st; isInView := false |}
        else st
  end.

(** The calls of the callback, each with the [inView] prop of its time. *)
Definition observe (calls : list (option inViewProp * list bool)) (st : view_state)
    : view_state :=
  fold_left (fun st call => observer_callback (fst call) (snd call) st) calls st.

(** A call whose first entry is intersecting. *)
Definition enters (call : option inViewProp * list bool) : bool :=
  match snd call with
  | true :: _ => true
  | _ => false
  end.

(** The [isIntersecting] of the first entry of the last call that had
    one. *)
Fixpoint last_seen (calls : list (option inViewProp * list bool)) (seen : bool) : bool :=
  match calls with
  | [] => seen
  | (_, []) :: rest => last_seen rest seen
  | (_, b :: _) :: rest => last_seen rest b
  end.

(** ** Measurement: what is recorded *)

Section MeasureFacts.

Variable range_left : nat -> nat -> Q.

Lemma units_text_app ws1 ws2 :
  units_text (ws1 ++ ws2) = units_text ws1 ++ units_text ws2.
Proof. unfold units_text. by rewrite map_app, concat_app. Qed.

Lemma emitted_pushWord st : emitted (pushWord st) = emitted st.
Proof.
  unfold pushWord, emitted. destruct (currentWord st) as [|m l] eqn:E.
  - by rewrite E.
  - cbn [words currentWord]. rewrite units_text_app.
    unfold units_text at 2. cbn. unfold word_text. cbn.
    by rewrite !app_nil_r.
Qed.

Lemma break_char_not_whitespace c :
  [c] ∈ BREAK_CHARS -> is_whitespace c = false.
Proof.
  unfold BREAK_CHARS. intros H.
  apply elem_of_union in H as [H|H]; apply elem_of_singleton in H;
    injection H as ->; reflexivity.
Qed.

Lemma emitted_scan_char k i c st :
  emitted (scan_char range_left k i c st) =
  emitted st ++ (if is_whitespace c then [] else [c]).
Proof.
  unfold scan_char. destruct (is_whitespace c).
  - by rewrite emitted_pushWord, app_nil_r.
  - assert (Hst1 : forall st1,
               words st1 = words st ->
               currentWord st1 = currentWord st ++ [ {| char := [c]; left := range_left k i |} ] ->
               emitted st1 = emitted st ++ [c]).
    { intros st1 Hw Hc. unfold emitted. rewrite Hw, Hc, map_app, concat_app.
      cbn. by rewrite app_assoc. }
    case_bool_decide.
    + unfold set_noSpaceBeforeNext, emitted at 1. cbn [words currentWord].
      fold (emitted (pushWord
        {| words := words st;
           currentWord := currentWord st ++ [ {| char := [c]; left := range_left k i |} ];
           wordStartLeft := match wordStartLeft st with None => Some (range_left k i) | Some w => Some w end;
           noSpaceBeforeNext := noSpaceBeforeNext st |})).
      rewrite emitted_pushWord. by apply Hst1.
    + by apply Hst1.
Qed.

Lemma emitted_scan_text k text : forall i st,
  emitted (scan_text range_left k i text st) = emitted st ++ strip_whitespace text.
Proof.
  induction text as [|c text IH]; intros i st; cbn [scan_text].
  - by rewrite app_nil_r.
  - rewrite IH, emitted_scan_char. unfold strip_whitespace.
    destruct (is_whitespace c) eqn:E.
    + rewrite filter_cons_False by (rewrite E; done). by rewrite app_nil_r.
    + rewrite filter_cons_True by done. by rewrite <- app_assoc.
Qed.

Lemma strip_whitespace_app s t :
  strip_whitespace (s ++ t) = strip_whitespace s ++ strip_whitespace t.
Proof. apply filter_app. Qed.

Lemma emitted_scan_nodes nodes : forall k st,
  emitted (scan_nodes range_left k nodes st) =
  emitted st ++ strip_whitespace (concat nodes).
Proof.
  induction nodes as [|n nodes IH]; intros k st; cbn [scan_nodes concat].
  - by rewrite app_nil_r.
  - by rewrite IH, emitted_scan_text, strip_whitespace_app, app_assoc.
Qed.

Lemma words_of_pushWord st :
  units_text (words (pushWord st)) = emitted st.
Proof.
  unfold emitted, pushWord.
  destruct (currentWord st) as [|m l]; cbn [words].
  - cbn. by rewrite app_nil_r.
  - rewrite units_text_app. unfold units_text at 2, word_text. cbn.
    by rewrite app_nil_r.
Qed.

(** C2, as amended: the recorded units, concatenated in document order,
    are the element's text with every space, tab and newline removed. *)
Theorem measured_units_are_stripped_text (kids : list onode) :
  units_text (measureOriginalText range_left kids) =
  strip_whitespace (textContent kids).
Proof.
  unfold measureOriginalText, textContent.
  by rewrite words_of_pushWord, emitted_scan_nodes.
Qed.

(** *** Break characters *)



(** The state right after a break character: the word is closed with the
    character as its last unit, and the flag for the next word is set. *)
Lemma scan_char_break k i c st :
  [c] ∈ BREAK_CHARS ->
  scan_char range_left k i c st =
  {| words := words st ++
              [ {| chars := currentWord st ++
                            [ {| char := [c]; left := range_left k i |} ];
                   startLeft := default (range_left k i) (wordStartLeft st);
                   noSpaceBefore := noSpaceBeforeNext st |} ];
     currentWord := [];
     wordStartLeft := None;
     noSpaceBeforeNext := true |}.
Proof.
  intros Hc. unfold scan_char.
  rewrite (break_char_not_whitespace c Hc).
  rewrite bool_decide_eq_true_2 by done.
  unfold pushWord, set_noSpaceBeforeNext. cbn [currentWord words wordStartLeft noSpaceBeforeNext].
  destruct (currentWord st ++ [ {| char := [c]; left := range_left k i |} ]) eqn:E.
  - by destruct (currentWord st).
  - cbn. by destruct (wordStartLeft st).
Qed.






(** *** Granularity and blank text *)

Lemma all_single_pushWord st : all_single st -> all_single (pushWord st).
Proof.
  intros [Hw Hc]. unfold pushWord.
  destruct (currentWord st) as [|m l] eqn:E; [by rewrite <- E in Hc|].
  split; [|constructor]. apply Forall_app. split; [done|].
  by apply Forall_singleton.
Qed.

Lemma all_single_scan_char k i c st :
  all_single st -> all_single (scan_char range_left k i c st).
Proof.
  intros H. unfold scan_char. destruct (is_whitespace c).
  { by apply all_single_pushWord. }
  match goal with |- context [pushWord ?s] => set (st1 := s) end.
  assert (H1 : all_single st1).
  { destruct H as [Hw Hc]. split; [done|]. apply Forall_app. split; [done|].
    by apply Forall_singleton. }
  case_bool_decide; [|done].
  by apply all_single_pushWord in H1 as [? ?].
Qed.

Lemma all_single_scan_text k text : forall i st,
  all_single st -> all_single (scan_text range_left k i text st).
Proof.
  induction text as [|c text IH]; intros i st H; cbn [scan_text]; [done|].
  by apply IH, all_single_scan_char.
Qed.

Lemma all_single_scan_nodes nodes : forall k st,
  all_single st -> all_single (scan_nodes range_left k nodes st).
Proof.
  induction nodes as [|n nodes IH]; intros k st H; cbn [scan_nodes]; [done|].
  by apply IH, all_single_scan_text.
Qed.

(** Whatever the text, every recorded unit is one UTF-16 code unit:
    nothing is ever grouped into a cluster. *)
Lemma recorded_units_are_single_code_units kids :
  Forall (fun w => Forall (fun mc => length (char mc) = 1) (chars w))
         (measureOriginalText range_left kids).
Proof.
  unfold measureOriginalText.
  apply all_single_pushWord, all_single_scan_nodes.
  split; constructor.
Qed.

Lemma scan_text_blank k text : forall i,
  strip_whitespace text = [] ->
  scan_text range_left k i text mstate_init = mstate_init.
Proof.
  induction text as [|c text IH]; intros i H; cbn [scan_text]; [done|].
  unfold strip_whitespace in H.
  destruct (is_whitespace c) eqn:E.
  - rewrite filter_cons_False in H by (rewrite E; done).
    unfold scan_char. rewrite E. by apply IH.
  - by rewrite filter_cons_True in H.
Qed.

Lemma scan_nodes_blank nodes : forall k,
  strip_whitespace (concat nodes) = [] ->
  scan_nodes range_left k nodes mstate_init = mstate_init.
Proof.
  induction nodes as [|n nodes IH]; intros k H; cbn [scan_nodes]; [done|].
  cbn [concat] in H. rewrite strip_whitespace_app in H.
  apply app_eq_nil in H as [H1 H2].
  rewrite scan_text_blank by done. by apply IH.
Qed.

(** Text made of spaces, tabs and newlines only, or no text at all, is
    exactly the text for which nothing is measured. *)
Lemma measure_nil_iff_blank kids :
  measureOriginalText range_left kids = [] <->
  strip_whitespace (textContent kids) = [].
Proof.
  split.
  - intros H. unfold measureOriginalText, textContent in *.
    rewrite <- (app_nil_l (strip_whitespace _)).
    change [] with (emitted mstate_init) at 1.
    by rewrite <- (emitted_scan_nodes _ 0), <- words_of_pushWord, H.
  - intros H. unfold measureOriginalText, textContent in *.
    by rewrite scan_nodes_blank.
Qed.

End MeasureFacts.

(** ** Appending words with separators *)

Lemma bind_unfold {A B} (m : M A) (f : A -> M B) w :
  (m ≫= f) w = match m w with Some (a, w') => f a w' | None => None end.
Proof. reflexivity. Qed.

Lemma ret_unfold {A} (x : A) w : (mret x : M A) w = Some (x, w).
Proof. reflexivity. Qed.

Lemma wants_space_at s pre x rest :
  wants_space s (pre ++ x :: rest) (length pre) =
  match rest with
  | [] => false
  | y :: _ => negb (bool_decide (y ∈ s))
  end.
Proof.
  unfold wants_space. rewrite length_app. cbn [length].
  rewrite lookup_app_r by lia.
  replace (length pre + 1 - length pre) with 1 by lia.
  destruct rest as [|y rest]; cbn [length lookup].
  - replace (length pre + 1 - 1) with (length pre) by lia.
    by rewrite Nat.ltb_irrefl.
  - replace (length pre <? length pre + S (S (length rest)) - 1) with true; [done|].
    symmetry. apply Nat.ltb_lt. lia.
Qed.

Section AppendWords.

(** An append primitive together with its effect on the world. *)
Variable append : child -> M unit.
Variable app_to : list child -> world -> world.
Hypothesis append_one : forall c w, append c w = Some (tt, app_to [c] w).
Hypothesis app_to_app : forall a b w, app_to b (app_to a w) = app_to (a ++ b) w.
Hypothesis app_to_nil : forall w, app_to [] w = w.

Lemma append_words_from s ws rest : forall pre w,
  ws = pre ++ rest ->
  forEach_from (fun wordSpan idx =>
                  append (Ref wordSpan) ;;
                  if wants_space s ws idx then append space_node else mret tt)
               (length pre) rest w =
  Some (tt, app_to (interleave s rest) w).
Proof.
  induction rest as [|x rest IH]; intros pre w Hws; cbn [forEach_from interleave].
  - by rewrite app_to_nil.
  - rewrite bind_unfold, bind_unfold, append_one.
    rewrite Hws, wants_space_at.
    assert (Hnext : ws = (pre ++ [x]) ++ rest) by (by rewrite <- app_assoc).
    specialize (IH (pre ++ [x])). rewrite length_app in IH. cbn [length] in IH.
    rewrite Nat.add_1_r in IH. rewrite <- Hws.
    destruct rest as [|y rest'].
    + reflexivity.
    + destruct (bool_decide (y ∈ s)); cbn [negb].
      * rewrite ret_unfold, IH by done. by rewrite app_to_app.
      * rewrite append_one. rewrite IH by done.
        by rewrite !app_to_app.
Qed.

Lemma append_words_spec s ws w :
  append_words append s ws w = Some (tt, app_to (interleave s ws) w).
Proof. unfold append_words, forEach. by apply (append_words_from s ws ws []). Qed.

End AppendWords.

(** ** Reasoning about monadic code *)

Lemma wp_ret {A} (a : A) (Q : A -> world -> Prop) w : Q a w -> wp (mret a) Q w.
Proof. done. Qed.

Lemma wp_bind {A B} (m : M A) (f : A -> M B) (Q : B -> world -> Prop) w :
  wp m (fun a w' => wp (f a) Q w') w -> wp (m ≫= f) Q w.
Proof. unfold wp. rewrite bind_unfold. by destruct (m w) as [[a w']|]. Qed.

Lemma wp_mono {A} (m : M A) (Q Q' : A -> world -> Prop) w :
  (forall a w', Q a w' -> Q' a w') -> wp m Q w -> wp m Q' w.
Proof. unfold wp. intros H. destruct (m w) as [[a w']|]; [apply H|done]. Qed.

Lemma wp_modify f (Q : unit -> world -> Prop) w : Q tt (f w) -> wp (modify f) Q w.
Proof. done. Qed.

Lemma wp_elim {A} (m : M A) (Q : A -> world -> Prop) w :
  wp m Q w -> exists a w', m w = Some (a, w') /\ Q a w'.
Proof. unfold wp. destruct (m w) as [[a w']|]; [eauto|done]. Qed.

Lemma wp_intro {A} (m : M A) (Q : A -> world -> Prop) w a w' :
  m w = Some (a, w') -> Q a w' -> wp m Q w.
Proof. unfold wp. by intros ->. Qed.

Lemma ext_refl w : ext w w.
Proof. by repeat split. Qed.

Lemma ext_trans w1 w2 w3 : ext w1 w2 -> ext w2 w3 -> ext w1 w3.
Proof.
  intros (?&?&?&?) (?&?&?&?). repeat split; try congruence. lia.
Qed.

Lemma with_heap_id w : with_heap (heap w) w = w.
Proof. by destruct w. Qed.

Lemma set_children_id s : set_children (children s) s = s.
Proof. by destruct s. Qed.

Lemma el_append_all_app a b w :
  el_append_all b (el_append_all a w) = el_append_all (a ++ b) w.
Proof. unfold el_append_all, with_children. cbn. by rewrite app_assoc. Qed.

Lemma el_append_all_nil w : el_append_all [] w = w.
Proof. unfold el_append_all. rewrite app_nil_r. by destruct w. Qed.

Lemma span_append_all_app id a b w :
  span_append_all id b (span_append_all id a w) = span_append_all id (a ++ b) w.
Proof.
  unfold span_append_all, with_heap. cbn. f_equal.
  rewrite alter_alter_eq. apply alter_ext. intros s _. cbn.
  unfold set_children. cbn. by rewrite app_assoc.
Qed.

Lemma span_append_all_nil id w : span_append_all id [] w = w.
Proof.
  unfold span_append_all. rewrite alter_id; [apply with_heap_id|].
  intros s _. rewrite app_nil_r. apply set_children_id.
Qed.

Lemma append_words_el s ws w :
  append_words el_appendChild s ws w = Some (tt, el_append_all (interleave s ws) w).
Proof.
  apply (append_words_spec el_appendChild el_append_all); intros.
  - reflexivity.
  - apply el_append_all_app.
  - apply el_append_all_nil.
Qed.

Lemma append_words_span id s ws w :
  append_words (span_appendChild id) s ws w =
  Some (tt, span_append_all id (interleave s ws) w).
Proof.
  apply (append_words_spec (span_appendChild id) (span_append_all id)); intros.
  - reflexivity.
  - apply span_append_all_app.
  - apply span_append_all_nil.
Qed.

Lemma element_children_interleave s ws : element_children (interleave s ws) = ws.
Proof.
  induction ws as [|x ws IH]; [done|]. cbn [interleave].
  destruct ws as [|y ws']; [done|].
  unfold element_children in *. cbn [omap list_omap].
  rewrite omap_app. rewrite IH.
  by destruct (bool_decide (y ∈ s)).
Qed.

(** ** The stages of a split *)

Lemma wp_createSpan cls idx d (Q : nat -> world -> Prop) w :
  (forall s, Q (next_id w) (alloc s w)) ->
  wp (createSpan cls idx d) Q w.
Proof. intros H. apply H. Qed.

Lemma wp_update_span id f (Q : unit -> world -> Prop) w :
  (forall h, Q tt (with_heap h w)) -> wp (update_span id f) Q w.
Proof. intros H. apply H. Qed.

Lemma wp_collect_from {A B} (f : A -> nat -> M B) (I : nat -> list B -> world -> Prop)
    (l : list A) : forall i w,
  (forall j x w1, l !! j = Some x -> 
     forall acc, I (i + j) acc w1 -> wp (f x (i + j)) (fun y w2 => I (S (i + j)) (acc ++ [y]) w2) w1) ->
  forall acc, I i acc w ->
  wp (collect_from f i l) (fun ys w' => I (i + length l) (acc ++ ys) w') w.
Proof.
  induction l as [|x l IH]; intros i w Hstep acc HI; cbn [collect_from length].
  - apply wp_ret. by rewrite Nat.add_0_r, app_nil_r.
  - apply wp_bind.
    specialize (Hstep 0 x w eq_refl acc) as H0. rewrite Nat.add_0_r in H0.
    eapply wp_mono; [|by apply H0].
    intros y w1 Hy. cbn beta. apply wp_bind.
    eapply wp_mono; [|apply (IH (S i) w1); [|exact Hy]].
    + intros ys w2 H2. apply wp_ret. cbn beta in H2.
      replace (i + S (length l)) with (S i + length l) by lia.
      by rewrite <- app_assoc in H2.
    + intros j x' w' Hj acc' Hacc.
      replace (S i + j) with (i + S j) in * by lia.
      by apply Hstep.
Qed.

Section Stages.

Variable fl : Q -> Q.
Variable serialize_fragment : list onode -> jsstring.
Variable parse_fragment : jsstring -> list onode.

Variable range_left : nat -> nat -> Q.
Variable rect_left : world -> nat -> Q.
Variable rect_top : world -> nat -> Q.

(** *** STEP 2 *)

Lemma build_char_wp cls wordSpan mw mc i w :
  (0 < i -> is_Some (chars mw !! (i - 1))) ->
  wp (build_char fl cls wordSpan mw mc i)
     (fun _ w' => ext w w' /\ el_children w' = el_children w) w.
Proof.
  intros Hi. unfold build_char, span_set_textContent, span_appendChild.
  apply wp_bind, wp_createSpan. intros s.
  apply wp_bind, wp_update_span. intros h1.
  apply wp_bind.
  destruct (0 <? i) eqn:E.
  - apply Nat.ltb_lt in E. destruct (Hi E) as [p ->].
    apply wp_update_span. intros h2.
    apply wp_bind, wp_update_span. intros h3. apply wp_ret.
    repeat split; cbn; lia.
  - apply wp_ret. apply wp_bind, wp_update_span. intros h3. apply wp_ret.
    repeat split; cbn; lia.
Qed.

Lemma build_word_wp cc wc mw i w :
  wp (build_word fl cc wc mw i)
     (fun b w' => word_id b = next_id w /\ word_flag b = noSpaceBefore mw /\
                  ext w w' /\ next_id w < next_id w' /\
                  el_children w' = el_children w) w.
Proof.
  unfold build_word. apply wp_bind, wp_createSpan. intros s.
  match goal with |- wp _ _ ?w1 => set (w0 := w1) end.
  apply wp_bind. unfold collect.
  eapply wp_mono;
    [|apply (wp_collect_from _
               (fun _ _ w1 => ext w0 w1 /\ el_children w1 = el_children w0)
               (chars mw) 0 w0) with (acc := [])].
  - intros cs w1 [He Hc]. apply wp_ret. cbn in He, Hc.
    destruct He as (Ha & Hs & Hco & Hn). cbn in *.
    repeat split; try done. all: lia.
  - intros j x w1 Hj acc [He Hc]. cbn [Nat.add].
    eapply wp_mono; [|apply build_char_wp].
    + intros _ w2 [He2 Hc2]. split; [by eapply ext_trans|congruence].
    + intros Hpos. apply lookup_lt_is_Some.
      apply lookup_lt_Some in Hj. lia.
  - split; [apply ext_refl|done].
Qed.

Lemma build_words_wp cc wc mws w :
  wp (collect (build_word fl cc wc) mws)
     (fun built w' =>
        ext w w' /\ el_children w' = el_children w /\
        map word_flag built = map noSpaceBefore mws /\
        Forall (fun x => next_id w <= x < next_id w') (map word_id built) /\
        NoDup (map word_id built)) w.
Proof.
  unfold collect.
  eapply wp_mono;
    [|apply (wp_collect_from _
               (fun j acc w1 =>
                  ext w w1 /\ el_children w1 = el_children w /\
                  map word_flag acc = map noSpaceBefore (take j mws) /\
                  Forall (fun x => next_id w <= x < next_id w1) (map word_id acc) /\
                  NoDup (map word_id acc))
               mws 0 w) with (acc := [])].
  - intros built w' (He & Hc & Hf & Hr & Hn). cbn in *.
    by rewrite firstn_all in Hf.
  - intros j x w1 Hj acc (He & Hc & Hf & Hr & Hn). cbn [Nat.add].
    eapply wp_mono; [|apply build_word_wp].
    intros b w2 (Hid & Hfl & He2 & Hlt & Hc2). cbn beta.
    split; [by eapply ext_trans|]. split; [congruence|].
    rewrite !map_app. cbn [map].
    split; [by rewrite (take_S_r _ _ x), map_app, Hf, Hfl|].
    split.
    + apply Forall_app. split.
      * eapply Forall_impl; [exact Hr|]. cbn. intros; lia.
      * apply Forall_singleton. destruct He as (_&_&_&?). lia.
    + apply NoDup_app. split; [done|]. split; [|apply NoDup_singleton].
      intros y Hy Hy'. apply list_elem_of_singleton in Hy'. subst y.
      rewrite Forall_forall in Hr. apply Hr in Hy. lia.
  - split; [apply ext_refl|]. split; [done|]. cbn.
    repeat split; constructor.
Qed.

(** *** STEP 3 *)

Lemma elem_of_noSpaceBeforeSet built x :
  x ∈ noSpaceBeforeSet_of built <->
  exists b, b ∈ built /\ word_id b = x /\ word_flag b = true.
Proof.
  induction built as [|[[y f] cs] built IH]; cbn [noSpaceBeforeSet_of foldr].
  - split; [set_solver|]. by intros (b & ?%elem_of_nil & _).
  - fold (noSpaceBeforeSet_of built).
    assert (Hrest : (exists b, b ∈ (y, f, cs) :: built /\ word_id b = x /\ word_flag b = true) <->
                    (y = x /\ f = true) \/
                    (exists b, b ∈ built /\ word_id b = x /\ word_flag b = true)).
    { split.
      - intros (b & Hb & Hid & Hf). apply elem_of_cons in Hb as [->|Hb]; [by left|].
        right. by exists b.
      - intros [[-> ->]|(b & Hb & Hid & Hf)].
        + exists (x, true, cs). split; [by left|done].
        + exists b. split; [by right|done]. }
    rewrite Hrest, <- IH. destruct f.
    + rewrite elem_of_union, elem_of_singleton. split.
      * intros [->|?]; [by left|by right].
      * intros [[-> _]|?]; [by left|by right].
    + split; [by right|]. by intros [[_ ?]|?].
Qed.

Lemma word_flag_of_id built b :
  NoDup (map word_id built) -> b ∈ built ->
  bool_decide (word_id b ∈ noSpaceBeforeSet_of built) = word_flag b.
Proof.
  intros Hnd Hb. destruct (word_flag b) eqn:Hf.
  - apply bool_decide_eq_true_2, elem_of_noSpaceBeforeSet. by exists b.
  - apply bool_decide_eq_false_2. intros (b' & Hb' & Hid & Hf')%elem_of_noSpaceBeforeSet.
    apply list_elem_of_lookup in Hb as [i Hi], Hb' as [i' Hi'].
    assert (i' = i).
    { eapply NoDup_lookup; [exact Hnd| |].
      - by rewrite list_lookup_fmap, Hi'.
      - by rewrite list_lookup_fmap, Hi, Hid. }
    subst i'. congruence.
Qed.

Lemma interleave_by_flags built rest : forall pre,
  built = pre ++ rest -> NoDup (map word_id built) ->
  interleave (noSpaceBeforeSet_of built) (map word_id rest) =
  interleave_flagged (map (fun b => (word_id b, word_flag b)) rest).
Proof.
  induction rest as [|b rest IH]; intros pre Hb Hnd; [done|].
  cbn [map interleave interleave_flagged].
  destruct rest as [|b' rest']; [done|].
  f_equal. cbn [map].
  rewrite word_flag_of_id; [|done|].
  - f_equal. apply (IH (pre ++ [b])); [by rewrite <- app_assoc|done].
  - rewrite Hb. apply elem_of_app. right. right. by left.
Qed.

Lemma build_and_insert_wp cc wc mws w :
  wp (build_and_insert fl cc wc mws)
     (fun built w' =>
        ext w w' /\
        el_children w' =
          el_children w ++
          interleave_flagged (zip (map word_id built) (map noSpaceBefore mws)) /\
        length built = length mws /\
        NoDup (map word_id built) /\
        map word_flag built = map noSpaceBefore mws /\
        Forall (fun x => next_id w <= x < next_id w') (map word_id built)) w.
Proof.
  unfold build_and_insert. apply wp_bind.
  eapply wp_mono; [|apply build_words_wp].
  intros built w1 (He & Hc & Hf & Hfresh & Hnd). cbn beta.
  apply wp_bind. eapply wp_intro; [apply append_words_el|].
  apply wp_ret. split; [|split; [|split; [|split; [exact Hnd|split; [exact Hf|exact Hfresh]]]]].
  - eapply ext_trans; [exact He|]. by repeat split.
  - cbn. rewrite Hc. f_equal.
    rewrite (interleave_by_flags built built []) by done.
    f_equal. rewrite <- Hf. clear.
    induction built as [|b built IH]; [done|]. cbn. by rewrite IH.
  - by rewrite <- (length_map word_flag), Hf, length_map.
Qed.

(** *** STEP 4 *)

Lemma with_heap_with_heap h h' w : with_heap h' (with_heap h w) = with_heap h' w.
Proof. done. Qed.

Lemma update_span_eq id f w :
  update_span id f w = Some (tt, with_heap (alter f id (heap w)) w).
Proof. reflexivity. Qed.

Lemma kern_char_eq cs positions i c w :
  cs !! i = Some c ->
  kern_char fl cs positions i w =
  Some (tt, with_heap (alter (kern_span fl positions i) c (heap w)) w).
Proof.
  intros Hc. unfold kern_char. rewrite Hc. unfold span_at.
  destruct (heap w !! c) as [s|] eqn:Hs; cbn [default from_option id].
  - destruct (data_expectedGap s) as [g|] eqn:Hg.
    + rewrite bind_unfold.
      assert (Hk : forall f : span -> span,
                 kern_span fl positions i s = set_expectedGap None (f s) ->
                 with_heap (alter (set_expectedGap None) c (alter f c (heap w))) w =
                 with_heap (alter (kern_span fl positions i) c (heap w)) w).
      { intros f Hf. f_equal. rewrite alter_alter_eq. apply alter_ext.
        intros s' Hs'. rewrite Hs in Hs'. injection Hs' as <-. by rewrite Hf. }
      assert (Hks : kern_span fl positions i s =
                    set_expectedGap None
                      (match kern_delta fl positions i g with
                       | Some delta =>
                           if Qltb (Qabs delta) 20
                           then set_marginLeft (round2 fl delta) s else s
                       | None => s
                       end)).
      { unfold kern_span. by rewrite Hg. }
      assert (Hskip : (mret tt : M unit) w = Some (tt, w) ->
                kern_span fl positions i s = set_expectedGap None s ->
                update_span c (set_expectedGap None) w =
                Some (tt, with_heap (alter (kern_span fl positions i) c (heap w)) w)).
      { intros _ Hf. rewrite update_span_eq. do 2 f_equal.
        rewrite <- (Hk (fun s => s)) by done.
        f_equal. f_equal. symmetry. by apply alter_id. }
      destruct (kern_delta fl positions i g) as [d|].
      * destruct (Qltb (Qabs d) 20).
        -- rewrite !update_span_eq. cbn [heap with_heap].
           rewrite with_heap_with_heap. do 2 f_equal. by apply Hk.
        -- rewrite ret_unfold. by apply Hskip.
      * rewrite ret_unfold. by apply Hskip.
    + f_equal. f_equal. rewrite alter_id; [by rewrite with_heap_id|].
      intros s' Hs'. rewrite Hs in Hs'. injection Hs' as <-.
      unfold kern_span. by rewrite Hg.
  - cbn. f_equal. f_equal. by rewrite alter_id', with_heap_id.
Qed.

Lemma kern_loop_total cs positions n : forall j w,
  j + n <= length cs ->
  exists h', for_from n j (kern_char fl cs positions) w = Some (tt, with_heap h' w).
Proof.
  induction n as [|n IH]; intros j w Hle; cbn [for_from].
  - exists (heap w). by rewrite with_heap_id.
  - destruct (lookup_lt_is_Some_2 cs j) as [c Hc]; [lia|].
    rewrite bind_unfold, (kern_char_eq _ _ _ c) by done.
    destruct (IH (S j) (with_heap (alter (kern_span fl positions j) c (heap w)) w))
      as [h' Hh']; [lia|].
    exists h'. by rewrite Hh'.
Qed.

Lemma kern_loop cs positions n : forall j w,
  NoDup cs -> j + n <= length cs ->
  exists h',
    for_from n j (kern_char fl cs positions) w = Some (tt, with_heap h' w) /\
    forall i c, cs !! i = Some c ->
      h' !! c = if bool_decide (j <= i < j + n)
                then kern_span fl positions i <$> heap w !! c
                else heap w !! c.
Proof.
  induction n as [|n IH]; intros j w Hnd Hle; cbn [for_from].
  - exists (heap w). split; [by rewrite with_heap_id|].
    intros i c _. rewrite bool_decide_eq_false_2; [done|lia].
  - destruct (lookup_lt_is_Some_2 cs j) as [cj Hcj]; [lia|].
    rewrite bind_unfold, (kern_char_eq _ _ _ cj) by done.
    destruct (IH (S j) (with_heap (alter (kern_span fl positions j) cj (heap w)) w))
      as (h' & Hrun & Hh'); [done|lia|].
    exists h'. split; [by rewrite Hrun|].
    intros i c Hc. rewrite (Hh' i c Hc). cbn [heap with_heap].
    destruct (decide (i = j)) as [->|Hne].
    + assert (c = cj) as -> by congruence.
      rewrite bool_decide_eq_false_2 by lia.
      rewrite bool_decide_eq_true_2 by lia.
      apply lookup_alter_eq.
    + assert (cj <> c).
      { intros ->. apply Hne. by eapply NoDup_lookup. }
      rewrite lookup_alter_ne by done.
      destruct (decide (j <= i < j + S n)).
      * rewrite !bool_decide_eq_true_2 by lia. done.
      * rewrite !bool_decide_eq_false_2 by lia. done.
Qed.

Lemma compensate_word_total wordSpan w :
  exists h', compensate_word fl rect_left wordSpan w = Some (tt, with_heap h' w).
Proof.
  unfold compensate_word.
  destruct (_ <? 2) eqn:E.
  - exists (heap w). by rewrite with_heap_id.
  - unfold for_range. apply kern_loop_total.
    apply Nat.ltb_ge in E. lia.
Qed.

Lemma compensate_all_total allWords : forall i w,
  exists h',
    forEach_from (fun wordSpan (_ : nat) => compensate_word fl rect_left wordSpan) i allWords w =
    Some (tt, with_heap h' w).
Proof.
  induction allWords as [|x l IH]; intros i w; cbn [forEach_from].
  - exists (heap w). by rewrite with_heap_id.
  - destruct (compensate_word_total x w) as [h1 H1].
    rewrite bind_unfold, H1.
    destruct (IH (S i) (with_heap h1 w)) as [h2 H2].
    exists h2. by rewrite H2.
Qed.

(** *** STEP 5 *)

Lemma detect_fold w l : forall st,
  let st' := fold_left (detect_step rect_top w) l st in
  concat (lineGroups st') ++ currentLine st' =
  concat (lineGroups st) ++ currentLine st ++ l.
Proof.
  induction l as [|x l IH]; intros st; cbn [fold_left].
  - cbn. by rewrite app_nil_r.
  - cbn zeta in *. rewrite IH. unfold detect_step.
    destruct (currentY st) as [y|]; [destruct (_ <? 5)%Z|];
      cbn [lineGroups currentLine]; rewrite ?concat_app; cbn [concat];
      rewrite ?app_nil_r, <- ?app_assoc; done.
Qed.

Lemma detect_lines_concat w allWords :
  concat (detect_lines rect_top w allWords) = allWords.
Proof.
  unfold detect_lines.
  pose proof (detect_fold w allWords lstate_init) as H. cbn zeta in H.
  destruct (currentLine _) as [|x l] eqn:E.
  - rewrite app_nil_r in H. exact H.
  - rewrite concat_app. cbn [concat]. rewrite app_nil_r. exact H.
Qed.

(** *** STEP 6 *)

Lemma createSpan_eq cls idx d w :
  createSpan cls idx d w = Some (next_id w, alloc (fresh_span cls idx d) w).
Proof. reflexivity. Qed.

Lemma wrap_line_eq lc s g idx w :
  wrap_line lc s g idx w =
  Some (next_id w,
        el_append_all [Ref (next_id w)]
          (span_append_all (next_id w) (interleave s g)
             (alloc (fresh_span lc (Some idx) block) w))).
Proof.
  unfold wrap_line. rewrite bind_unfold, createSpan_eq.
  rewrite bind_unfold, append_words_span. reflexivity.
Qed.

Lemma wrap_lines_wp lc s groups w :
  wp (collect (wrap_line lc s) groups)
     (fun allLines w' =>
        ext w w' /\
        el_children w' = el_children w ++ map Ref allLines /\
        allLines = seq (next_id w) (length groups) /\
        forall k g, groups !! k = Some g ->
          children (span_at w' (next_id w + k)) = interleave s g) w.
Proof.
  unfold collect.
  eapply wp_mono;
    [|apply (wp_collect_from _
               (fun j acc w1 =>
                  ext w w1 /\
                  el_children w1 = el_children w ++ map Ref acc /\
                  acc = seq (next_id w) j /\
                  next_id w1 = next_id w + j /\
                  forall k g, k < j -> groups !! k = Some g ->
                    children (span_at w1 (next_id w + k)) = interleave s g)
               groups 0 w) with (acc := [])].
  - intros allLines w' (He & Hc & Hs & Hn & Hk). cbn [Nat.add app] in *.
    split; [done|]. split; [done|]. split; [done|].
    intros k g Hg. apply Hk; [|done]. by eapply lookup_lt_Some.
  - intros j g w1 Hj acc (He & Hc & Hs & Hn & Hk). cbn [Nat.add] in *.
    eapply wp_intro; [apply wrap_line_eq|]. cbn beta.
    split; [|split; [|split; [|split]]].
    + eapply ext_trans; [exact He|]. repeat split; cbn; lia.
    + cbn. by rewrite Hc, map_app, app_assoc.
    + by rewrite seq_S, Hs, Hn.
    + cbn. lia.
    + intros k g' Hlt Hg'. unfold span_at. cbn [heap el_append_all with_children
        span_append_all with_heap alloc].
      destruct (decide (k = j)) as [->|Hne].
      * rewrite <- Hn, lookup_alter_eq, lookup_insert_eq. cbn.
        congruence.
      * rewrite lookup_alter_ne, lookup_insert_ne by lia.
        apply Hk; [lia|done].
  - split; [apply ext_refl|]. cbn. rewrite app_nil_r.
    repeat split; try done. intros; lia.
Qed.

(** *** The whole split *)

Lemma elem_of_concat (x : nat) gs : x ∈ concat gs <-> exists g, g ∈ gs /\ x ∈ g.
Proof.
  induction gs as [|g0 gs IH]; cbn [concat].
  - split; [by intros ?%elem_of_nil|]. by intros (g & ?%elem_of_nil & _).
  - rewrite elem_of_app, IH. split.
    + intros [H|(g & Hg & Hx)].
      * exists g0. split; [by left|done].
      * exists g. split; [by right|done].
    + intros (g & Hg & Hx). apply elem_of_cons in Hg as [->|Hg]; [by left|].
      right. by exists g.
Qed.

Lemma NoDup_concat_unique (gs : list (list nat)) :
  NoDup (concat gs) ->
  forall j j' g g' x,
    gs !! j = Some g -> gs !! j' = Some g' -> x ∈ g -> x ∈ g' -> j = j'.
Proof.
  induction gs as [|g0 gs IH]; intros Hnd j j' g g' x Hj Hj' Hx Hx'.
  { by rewrite lookup_nil in Hj. }
  cbn [concat] in Hnd. apply NoDup_app in Hnd as (_ & Hdisj & Hnd).
  destruct j as [|j], j' as [|j']; cbn in Hj, Hj'.
  - done.
  - injection Hj as <-. exfalso. apply (Hdisj x Hx).
    apply elem_of_concat. exists g'. split; [|done]. by eapply list_elem_of_lookup_2.
  - injection Hj' as <-. exfalso. apply (Hdisj x Hx').
    apply elem_of_concat. exists g. split; [|done]. by eapply list_elem_of_lookup_2.
  - f_equal. by eapply IH.
Qed.

Lemma Ref_elem_of_interleave s g x : Ref x ∈ interleave s g <-> x ∈ g.
Proof.
  rewrite <- (element_children_interleave s g) at 2.
  unfold element_children. rewrite list_elem_of_omap. split.
  - intros H. by exists (Ref x).
  - intros (c & Hc & Hx). destruct c; [done|]. by injection Hx as ->.
Qed.

Lemma splitText_wp e opts :
  wp (splitText_body fl serialize_fragment parse_fragment
      range_left rect_left rect_top (kids e) opts)
     (split_post serialize_fragment parse_fragment e) (world_of e).
Proof.
  unfold splitText_body, split_steps.
  apply wp_bind, wp_modify. apply wp_bind, wp_modify.
  apply wp_bind. eapply wp_mono; [|apply build_and_insert_wp].
  intros built w3 (He3 & Hc3 & Hflag & Hnd & _). cbn beta.
  apply wp_bind.
  match goal with |- wp (forEach _ ?ws) _ ?w4 =>
    destruct (compensate_all_total ws 0 w4) as [h5 H5] end.
  eapply wp_intro; [apply H5|].
  apply wp_bind. eapply wp_intro; [reflexivity|].
  apply wp_bind, wp_modify.
  apply wp_bind. eapply wp_mono; [|apply wrap_lines_wp].
  intros allLines w7 (He7 & Hc7 & Hseq & Hkids). apply wp_ret.
  destruct He3 as (Ha3 & Hs3 & Hco3 & _), He7 as (Ha7 & Hs7 & Hco7 & _).
  cbn in Ha3, Hs3, Hco3, Ha7, Hs7, Hco7, Hc7, Hseq, Hkids.
  unfold split_post. cbn [revert res_words res_lines res_chars].
  split; [done|]. split; [congruence|]. split; [congruence|].
  split; [congruence|]. split; [done|]. split; [done|].
  eexists _, _, _. split; [apply detect_lines_concat|].
  split; [exact Hseq|]. exact Hkids.
Qed.

Lemma splitText_total e opts :
  exists r w, splitText fl serialize_fragment parse_fragment
      range_left rect_left rect_top e opts = Some (r, w) /\
              split_post serialize_fragment parse_fragment e r w.
Proof. unfold splitText. apply wp_elim, splitText_wp. Qed.

End Stages.

(** ** Properties of [splitText] *)

Lemma Qltb_lt x y : Qltb x y = true <-> (x < y)%Q.
Proof.
  unfold Qltb. rewrite negb_true_iff. split.
  - intros H. apply Qnot_le_lt. intros Hle.
    apply Qle_bool_iff in Hle. congruence.
  - intros H. destruct (Qle_bool y x) eqn:E; [|done].
    apply Qle_bool_iff in E. exfalso. by apply (Qlt_not_le x y).
Qed.

Lemma map_line_words_seq w s groups : forall first,
  (forall k g, groups !! k = Some g ->
     children (span_at w (first + k)) = interleave s g) ->
  map (line_words w) (seq first (length groups)) = groups.
Proof.
  induction groups as [|g groups IH]; intros first H; [done|].
  cbn [length seq map]. f_equal.
  - unfold line_words. rewrite <- (Nat.add_0_r first), (H 0 g eq_refl).
    apply element_children_interleave.
  - apply IH. intros k g' Hk.
    replace (S first + k) with (first + S k) by lia. by apply H.
Qed.




Section Claims.

Variable fl : Q -> Q.
Variable serialize_fragment : list onode -> jsstring.
Variable parse_fragment : jsstring -> list onode.

Variable range_left : nat -> nat -> Q.
Variable rect_left : world -> nat -> Q.
Variable rect_top : world -> nat -> Q.




(** C9: whatever the options, a split starts by setting [aria-label] to
    the text of the original subtree, the children being still the
    original ones at that point; the attribute holds that text when
    [splitText] returns, and [revert] removes it. *)
Theorem aria_label_set_then_removed (e : element) (opts : SplitTextOptions) :
  (exists w0,
     el_setAttribute "aria-label" (textContent (kids e)) (world_of e) = Some (tt, w0) /\
     el_children w0 = map Static (kids e) /\
     el_attrs w0 !! "aria-label" = Some (textContent (kids e)) /\
     splitText fl serialize_fragment parse_fragment range_left rect_left rect_top e opts =
       split_steps fl parse_fragment range_left rect_left rect_top (kids e)
         (serialize_fragment (kids e)) opts w0) /\
  exists r w,
    splitText fl serialize_fragment parse_fragment
        range_left rect_left rect_top e opts = Some (r, w) /\
    el_attrs w !! "aria-label" = Some (textContent (kids e)) /\
    forall later : world,
      exists w1, revert r later = Some (tt, w1) /\
                 el_attrs w1 !! "aria-label" = None.
Proof.
  split.
  { eexists. split; [reflexivity|]. split; [reflexivity|].
    split; [apply lookup_insert_eq|]. reflexivity. }
  destruct (splitText_total fl serialize_fragment parse_fragment
      range_left rect_left rect_top e opts)
    as (r & w & Hrun & Hrev & Hattrs & _).
  exists r, w. split; [done|]. split.
  - rewrite Hattrs. apply lookup_insert_eq.
  - intros later. rewrite Hrev. eexists. split; [reflexivity|].
    cbn. apply lookup_delete_eq.
Qed.

(** C10: the line spans partition the word spans: reading the word
    children of the lines in order gives exactly [words], the words are
    pairwise distinct, and every word is a child of one line and of no
    other. *)
Theorem lines_partition_words (e : element) (opts : SplitTextOptions) :
  exists r w,
    splitText fl serialize_fragment parse_fragment
        range_left rect_left rect_top e opts = Some (r, w) /\
    concat (map (line_words w) (res_lines r)) = res_words r /\
    NoDup (res_words r) /\
    forall x, x ∈ res_words r ->
      exists l,
        l ∈ res_lines r /\ Ref x ∈ children (span_at w l) /\
        forall l', l' ∈ res_lines r -> Ref x ∈ children (span_at w l') -> l' = l.
Proof.
  destruct (splitText_total fl serialize_fragment parse_fragment
      range_left rect_left rect_top e opts)
    as (r & w & Hrun & _ & _ & _ & _ & _ & Hnd & first & s & groups & Hcat & Hseq & Hkids).
  exists r, w. split; [done|].
  split; [by rewrite Hseq, (map_line_words_seq w s groups first Hkids)|].
  split; [done|].
  intros x Hx. rewrite <- Hcat in Hx, Hnd.
  apply elem_of_concat in Hx as (g & Hg & Hx).
  apply list_elem_of_lookup in Hg as [k Hk].
  exists (first + k). rewrite Hseq. split.
  { apply elem_of_seq. apply lookup_lt_Some in Hk. lia. }
  split.
  { rewrite (Hkids k g Hk). by apply Ref_elem_of_interleave. }
  intros l' Hl' Hx'. apply elem_of_seq in Hl' as [Hge Hlt].
  destruct (lookup_lt_is_Some_2 groups (l' - first)) as [g' Hg']; [lia|].
  replace l' with (first + (l' - first)) in Hx' by lia.
  rewrite (Hkids _ g' Hg') in Hx'. apply Ref_elem_of_interleave in Hx'.
  assert (l' - first = k) by (by eapply (NoDup_concat_unique groups Hnd)).
  lia.
Qed.

(** *** Where the source stops short *)

(** Two words share a line exactly when their rounded tops differ by less
    than the constant 5; no font size enters the comparison. *)
Lemma two_words_line_break w a b :
  detect_lines rect_top w [a; b] =
  if (Z.abs (Math_round (rect_top w b) - Math_round (rect_top w a)) <? 5)%Z
  then [[a; b]] else [[a]; [b]].
Proof.
  unfold detect_lines. cbn [fold_left].
  change (detect_step rect_top w lstate_init a) with
    {| lineGroups := []; currentLine := [a];
       currentY := Some (Math_round (rect_top w a)) |}.
  unfold detect_step. cbn [currentY lineGroups currentLine app].
  by destruct (_ <? 5)%Z.
Qed.

(** No split touches the style of the target element, and neither does
    [revert]. *)
Lemma split_keeps_style (e : element) (opts : SplitTextOptions) :
  exists r w,
    splitText fl serialize_fragment parse_fragment
        range_left rect_left rect_top e opts = Some (r, w) /\
    el_style w = style e /\
    forall later : world,
      exists w1, revert r later = Some (tt, w1) /\ el_style w1 = el_style later.
Proof.
  destruct (splitText_total fl serialize_fragment parse_fragment
      range_left rect_left rect_top e opts)
    as (r & w & Hrun & Hrev & _ & Hstyle & _).
  exists r, w. split; [done|]. split; [done|].
  intros later. rewrite Hrev. eexists. split; reflexivity.
Qed.

(** On blank text the split returns three empty collections, writes
    nothing to the console, and still relabels and empties the element. *)
Lemma blank_text_split (e : element) (opts : SplitTextOptions) :
  strip_whitespace (textContent (kids e)) = [] ->
  exists r w,
    splitText fl serialize_fragment parse_fragment
        range_left rect_left rect_top e opts = Some (r, w) /\
    res_chars r = [] /\ res_words r = [] /\ res_lines r = [] /\
    console w = [] /\ el_children w = [] /\
    el_attrs w !! "aria-label" = Some (textContent (kids e)).
Proof.
  intros H. apply (measure_nil_iff_blank range_left) in H.
  unfold splitText, splitText_body, split_steps. rewrite H.
  eexists _, _. split; [reflexivity|]. cbn.
  repeat split. apply lookup_insert_eq.
Qed.

End Claims.

(** ** Concrete runs *)



(** C2, as first stated, fails: the space of "a b" is not recorded, so the
    recorded units do not reproduce the text. *)
Lemma measured_units_drop_whitespace :
  units_text (measureOriginalText mono_left [OText [97; 32; 98]%N]) <>
  textContent [OText [97; 32; 98]%N].
Proof. vm_compute. discriminate. Qed.

(** C3: the loop walks UTF-16 code units, so the family emoji of
    "Hello 👨‍👩‍👦 World 🎉✨" is recorded as eight units, each surrogate
    half and each joiner on its own, and "🎉✨" as three. *)
Lemma family_emoji_is_split_into_code_units :
  map (fun w => map char (chars w))
      (measureOriginalText mono_left [OText hello_family]) =
  [ [[72]; [101]; [108]; [108]; [111]];
    [[55357]; [56424]; [8205]; [55357]; [56425]; [8205]; [55357]; [56422]];
    [[87]; [111]; [114]; [108]; [100]];
    [[55356]; [57225]; [10024]] ]%N.
Proof. vm_compute. reflexivity. Qed.


Example kerning_concrete_margins :
  (fun '(_, w) => map (fun c => style_marginLeft (span_at w c)) [1; 2; 3]) <$>
    compensate_word binary64 even_left 0 kern_world =
  Some [None; Some (-1)%Q; None].
Proof. vm_compute. reflexivity. Qed.

(** The bound is tested on the rounded delta. The characters were
    measured at 0.1 and 20.5 and their spans sit at 0 and 0.4: the
    original gap is the double 20.4, the current gap the double 0.4, and
    their difference rounds to 20, so no margin is written, although the
    exact difference of the four doubles is below 20. *)
Example kerning_skipped_at_rounded_bound :
  let g := binary64 (binary64 (205 # 10) - binary64 (1 # 10)) in
  (fun '(_, w) => style_marginLeft (span_at w 2)) <$>
    compensate_word binary64 near_left 0 (gap_world g) = Some None /\
  (binary64 (205 # 10) - binary64 (1 # 10) - (binary64 (4 # 10) - 0) < 20)%Q.
Proof. split; vm_compute; reflexivity. Qed.

(** [Math.round(0.015 * 100) / 100] is the double 0.02: the product
    rounds up to 1.5. *)
Example round2_of_0_015 :
  round2 binary64 (binary64 (15 # 1000)) = binary64 (2 # 100) /\
  binary64 (binary64 (15 # 1000) * 100) = (3 # 2)%Q.
Proof. split; vm_compute; reflexivity. Qed.

(** C5: the source compares against the constant 5. With a font size of
    96 the specified tolerance is 28.8, yet two words whose tops are 0 and
    20 end up on two lines. *)
Lemma fixed_tolerance_breaks_line_at_20 :
  (Qabs (20 - 0) < spec_tolerance 96)%Q /\
  (fun '(r, w) => (res_words r, map (line_words w) (res_lines r))) <$>
    splitText binary64 text_markup parse_text
        mono_left even_left tops_0_20 (plain [97; 32; 98]%N) no_options =
  Some ([0; 2], [[0]; [2]]).
Proof. split; vm_compute; reflexivity. Qed.

(** C6: splitting "fi" into characters leaves the element's style without
    any ligature setting, before and after [revert]. *)
Lemma ligatures_are_not_suppressed :
  (fun '(r, w) =>
     (length (res_chars r),
      el_style w !! "font-variant-ligatures",
      (fun '(_, w1) => el_style w1 !! "font-variant-ligatures") <$> revert r w)) <$>
    splitText binary64 text_markup parse_text
        mono_left even_left tops_0_20 (plain [102; 105]%N) no_options =
  Some (2, None, Some None).
Proof. vm_compute. reflexivity. Qed.


Example break_char_concrete :
  (fun '(r, w) => (res_words r, map (fun l => children (span_at w l)) (res_lines r))) <$>
    splitText binary64 text_markup parse_text mono_left even_left flat_top
      (plain [97; 98; 8212; 99; 32; 100]%N) no_options =
  Some ([0; 4; 6], [[Ref 0; Ref 4; space_node; Ref 6]]).
Proof. vm_compute. reflexivity. Qed.

(** C8: on an element whose text is a single space the three collections
    are empty and nothing is thrown, but nothing is written to the console,
    the element has been given an [aria-label] and has lost its child, and
    [revert] is not inert: it removes an [aria-label] the element had
    before the call. *)
Lemma empty_text_split_is_silent_and_not_inert :
  (fun '(r, w) =>
     (res_chars r, res_words r, res_lines r, console w,
      el_attrs w !! "aria-label", el_children w,
      (fun '(_, w1) => el_attrs w1 !! "aria-label") <$> revert r w)) <$>
    splitText binary64 text_markup parse_text
        mono_left even_left flat_top labelled_blank no_options =
  Some ([], [], [], [], Some [SPACE], [], Some None).
Proof. vm_compute. reflexivity. Qed.

(** ** Measurement: shape of the words *)

Section MeasureShape.

Variable range_left : nat -> nat -> Q.

Lemma flags_chain_snoc ws w :
  flags_chain ws ->
  noSpaceBefore w = from_option ends_with_break false (last ws) ->
  flags_chain (ws ++ [w]).
Proof.
  intros [Hh Ha] Hw. split.
  - intros w0 H0. destruct ws as [|w1 ws]; cbn in *.
    + by injection H0 as <-.
    + by apply Hh.
  - intros j w1 w2 H1 H2.
    destruct (decide (S j < length ws)) as [Hlt|Hge].
    + rewrite lookup_app_l in H1 by lia. rewrite lookup_app_l in H2 by lia.
      by eapply Ha.
    + assert (S j = length ws) as Hj.
      { apply lookup_lt_Some in H2. rewrite length_app in H2. cbn in H2. lia. }
      rewrite lookup_app_l in H1 by lia.
      rewrite lookup_app_r in H2 by lia.
      rewrite Hj, Nat.sub_diag in H2. injection H2 as <-.
      rewrite last_lookup in Hw.
      replace (pred (length ws)) with j in Hw by lia.
      by rewrite H1 in Hw.
Qed.

Lemma measure_inv_init : measure_inv mstate_init.
Proof.
  split; [constructor|]. split; [|by repeat split; try constructor].
  split; [done|]. intros j w1 w2 H. cbn in H. by rewrite lookup_nil in H.
Qed.

(** Closing a word made of [cw], none of whose units but possibly the last
    is a break character. *)
Lemma closed_word_shape_ok cw sl flag :
  sl = left <$> head cw -> cw <> [] ->
  (forall i mc, cw !! i = Some mc -> char mc ∈ BREAK_CHARS -> S i = length cw) ->
  word_shape_ok {| chars := cw; startLeft := default 0%Q sl; noSpaceBefore := flag |}.
Proof.
  intros -> Hne Hb. split; [|exact Hb].
  destruct cw as [|m l]; [done|]. by exists m.
Qed.

Lemma measure_inv_pushWord st : measure_inv st -> measure_inv (pushWord st).
Proof.
  intros (Hs & Hc & Hf & Hl & Hb). unfold pushWord.
  destruct (currentWord st) as [|m l] eqn:E; [by rewrite <- E in Hb, Hl|].
  split; [|split; [|split; [|by split; [|constructor]]]]; cbn [words noSpaceBeforeNext].
  - apply Forall_app. split; [done|]. apply Forall_singleton.
    apply closed_word_shape_ok; [done|done|].
    intros i mc Hi Hbr. rewrite Forall_forall in Hb.
    exfalso. apply (Hb mc); [|done]. by eapply list_elem_of_lookup_2.
  - by apply flags_chain_snoc.
  - rewrite last_snoc. cbn. unfold ends_with_break. cbn [chars].
    destruct (last (m :: l)) as [mc|] eqn:El; [|done].
    symmetry. apply bool_decide_eq_false_2.
    rewrite Forall_forall in Hb. apply Hb.
    rewrite last_lookup in El. by eapply list_elem_of_lookup_2.
Qed.

Lemma measure_inv_scan_char k i c st :
  measure_inv st -> measure_inv (scan_char range_left k i c st).
Proof.
  intros Hinv. destruct (decide ([c] ∈ BREAK_CHARS)) as [Hbr|Hnb].
  - rewrite scan_char_break by done.
    destruct Hinv as (Hs & Hc & Hf & Hl & Hb).
    split; [|split; [|split; [|by split; [|constructor]]]]; cbn [words noSpaceBeforeNext].
    + apply Forall_app. split; [done|]. apply Forall_singleton. split.
      * cbn [chars startLeft]. rewrite Hl.
        destruct (currentWord st) as [|m l]; cbn; eauto.
      * cbn [chars]. intros j mc Hj Hmc. rewrite length_app. cbn [length].
        destruct (decide (j < length (currentWord st))) as [Hlt|Hge].
        -- rewrite lookup_app_l in Hj by done. rewrite Forall_forall in Hb.
           exfalso. apply (Hb mc); [|done]. by eapply list_elem_of_lookup_2.
        -- apply lookup_lt_Some in Hj. rewrite length_app in Hj. cbn in Hj. lia.
    + by apply flags_chain_snoc.
    + rewrite last_snoc. cbn. unfold ends_with_break. cbn [chars].
      rewrite last_snoc. cbn [char]. symmetry. by apply bool_decide_eq_true_2.
  - unfold scan_char. destruct (is_whitespace c).
    { by apply measure_inv_pushWord. }
    rewrite bool_decide_eq_false_2 by done.
    destruct Hinv as (Hs & Hc & Hf & Hl & Hb).
    split; [done|]. split; [done|]. split; [done|]. cbn [wordStartLeft currentWord].
    split.
    + rewrite Hl. by destruct (currentWord st).
    + apply Forall_app. split; [done|]. by apply Forall_singleton.
Qed.

Lemma measure_inv_scan_text k text : forall i st,
  measure_inv st -> measure_inv (scan_text range_left k i text st).
Proof.
  induction text as [|c text IH]; intros i st H; cbn [scan_text]; [done|].
  by apply IH, measure_inv_scan_char.
Qed.

Lemma measure_inv_scan_nodes nodes : forall k st,
  measure_inv st -> measure_inv (scan_nodes range_left k nodes st).
Proof.
  induction nodes as [|n nodes IH]; intros k st H; cbn [scan_nodes]; [done|].
  by apply IH, measure_inv_scan_text.
Qed.

Lemma measure_inv_result kids :
  Forall word_shape_ok (measureOriginalText range_left kids) /\
  flags_chain (measureOriginalText range_left kids).
Proof.
  unfold measureOriginalText.
  destruct (measure_inv_pushWord _
              (measure_inv_scan_nodes (text_nodes kids) 0 _ measure_inv_init))
    as (H1 & H2 & _).
  by split.
Qed.

(** X1: every measured word has a first unit and its [startLeft] is the
    left edge of that unit; no word is empty and the fallback [?? 0] of
    [pushWord] is never taken. *)
Theorem measured_word_starts_at_first_unit (kids : list onode) :
  Forall (fun w => exists mc, head (chars w) = Some mc /\ startLeft w = left mc)
         (measureOriginalText range_left kids).
Proof.
  destruct (measure_inv_result kids) as [H _].
  eapply Forall_impl; [exact H|]. by intros w [Hw _].
Qed.

(** X2: inside a measured word a break character can only be the last
    unit. *)
Theorem break_char_only_ends_a_word (kids : list onode) :
  Forall (fun w => forall i mc, chars w !! i = Some mc ->
                     char mc ∈ BREAK_CHARS -> S i = length (chars w))
         (measureOriginalText range_left kids).
Proof.
  destruct (measure_inv_result kids) as [H _].
  eapply Forall_impl; [exact H|]. by intros w [_ Hw].
Qed.

(** X3: the first measured word is never flagged [noSpaceBefore], and any
    later word is flagged exactly when the word before it ends with a
    break character, whatever whitespace lay between the two. *)
Theorem noSpaceBefore_iff_previous_ends_with_break (kids : list onode) :
  (forall w, head (measureOriginalText range_left kids) = Some w ->
     noSpaceBefore w = false) /\
  forall j w1 w2,
    measureOriginalText range_left kids !! j = Some w1 ->
    measureOriginalText range_left kids !! S j = Some w2 ->
    noSpaceBefore w2 = ends_with_break w1.
Proof. by destruct (measure_inv_result kids) as [_ H]. Qed.

(** *** Positions *)

Lemma recorded_pushWord st : recorded (pushWord st) = recorded st.
Proof.
  unfold pushWord, recorded. destruct (currentWord st) as [|m l] eqn:E.
  - by rewrite E.
  - cbn [words currentWord]. rewrite map_app, concat_app. cbn.
    by rewrite !app_nil_r.
Qed.

Lemma recorded_scan_char k i c st :
  recorded (scan_char range_left k i c st) =
  recorded st ++
  (if is_whitespace c then [] else [ {| char := [c]; left := range_left k i |} ]).
Proof.
  unfold scan_char. destruct (is_whitespace c).
  - by rewrite recorded_pushWord, app_nil_r.
  - match goal with |- context [pushWord ?s] => set (st1 := s) end.
    assert (H1 : recorded st1 =
                 recorded st ++ [ {| char := [c]; left := range_left k i |} ]).
    { unfold recorded, st1. cbn [words currentWord]. by rewrite app_assoc. }
    case_bool_decide; [|done].
    rewrite <- H1, <- (recorded_pushWord st1). reflexivity.
Qed.

Lemma recorded_scan_text k text : forall i st,
  recorded (scan_text range_left k i text st) =
  recorded st ++ visible_of_text range_left k i text.
Proof.
  induction text as [|c text IH]; intros i st; cbn [scan_text visible_of_text].
  - by rewrite app_nil_r.
  - by rewrite IH, recorded_scan_char, <- app_assoc.
Qed.

Lemma recorded_scan_nodes nodes : forall k st,
  recorded (scan_nodes range_left k nodes st) =
  recorded st ++ visible_of_nodes range_left k nodes.
Proof.
  induction nodes as [|n nodes IH]; intros k st; cbn [scan_nodes visible_of_nodes].
  - by rewrite app_nil_r.
  - by rewrite IH, recorded_scan_text, <- app_assoc.
Qed.

Lemma measure_recorded (kids : list onode) :
  concat (map chars (measureOriginalText range_left kids)) =
  visible_of_nodes range_left 0 (text_nodes kids).
Proof.
  unfold measureOriginalText.
  set (st := scan_nodes range_left 0 (text_nodes kids) mstate_init).
  assert (Hc : currentWord (pushWord st) = []).
  { unfold pushWord. destruct (currentWord st) eqn:E; [exact E|reflexivity]. }
  pose proof (recorded_pushWord st) as H. unfold recorded at 1 in H.
  rewrite Hc, app_nil_r in H. rewrite H. unfold st.
  by rewrite recorded_scan_nodes.
Qed.

(** X4: read in word order, the measured units are exactly the
    non-whitespace characters of the text nodes in document order, each
    with the left edge returned for its own node and offset: words may
    span text nodes and nothing is measured twice or skipped. *)
Theorem measured_units_and_positions (kids : list onode) :
  concat (map chars (measureOriginalText range_left kids)) =
  visible_of_nodes range_left 0 (text_nodes kids).
Proof. apply measure_recorded. Qed.

Lemma length_visible_of_text k text : forall i,
  length (visible_of_text range_left k i text) = length (strip_whitespace text).
Proof.
  induction text as [|c text IH]; intros i; [done|].
  cbn [visible_of_text]. rewrite length_app, IH. unfold strip_whitespace.
  destruct (is_whitespace c) eqn:E.
  - by rewrite filter_cons_False by (rewrite E; done).
  - by rewrite filter_cons_True by done.
Qed.

Lemma length_visible_of_nodes nodes : forall k,
  length (visible_of_nodes range_left k nodes) =
  length (strip_whitespace (concat nodes)).
Proof.
  induction nodes as [|n nodes IH]; intros k; [done|].
  cbn [visible_of_nodes concat].
  by rewrite length_app, strip_whitespace_app, length_app, IH, length_visible_of_text.
Qed.

End MeasureShape.

(** ** Line detection: shape of the groups *)

Section LineShape.

Variable rect_top : world -> nat -> Q.
Variable w : world.

Lemma lines_apart_same_head gs g g' :
  lines_apart rect_top w (gs ++ [g]) -> head g' = head g ->
  lines_apart rect_top w (gs ++ [g']).
Proof.
  intros H Hh j g1 g2 x1 x2 H1 H2 Hx1 Hx2.
  assert (S j < length gs \/ S j = length gs) as [Hlt|Heq].
  { apply lookup_lt_Some in H2. rewrite length_app in H2. cbn in H2. lia. }
  - rewrite lookup_app_l in H1 by lia. rewrite lookup_app_l in H2 by lia.
    apply (H j g1 g2); [by rewrite lookup_app_l by lia|by rewrite lookup_app_l by lia|done|done].
  - rewrite lookup_app_l in H1 by lia. rewrite lookup_app_r in H2 by lia.
    rewrite Heq, Nat.sub_diag in H2. injection H2 as <-.
    apply (H j g1 g); [by rewrite lookup_app_l by lia| |done|congruence].
    rewrite lookup_app_r by lia. by rewrite Heq, Nat.sub_diag.
Qed.

Lemma lines_apart_snoc gs x :
  lines_apart rect_top w gs ->
  (forall g1 x1, last gs = Some g1 -> head g1 = Some x1 ->
     (5 <= Z.abs (rounded_top rect_top w x - rounded_top rect_top w x1))%Z) ->
  lines_apart rect_top w (gs ++ [[x]]).
Proof.
  intros H Hl j g1 g2 x1 x2 H1 H2 Hx1 Hx2.
  assert (S j < length gs \/ S j = length gs) as [Hlt|Heq].
  { apply lookup_lt_Some in H2. rewrite length_app in H2. cbn in H2. lia. }
  - rewrite lookup_app_l in H1 by lia. rewrite lookup_app_l in H2 by lia.
    by apply (H j g1 g2).
  - rewrite lookup_app_l in H1 by lia. rewrite lookup_app_r in H2 by lia.
    rewrite Heq, Nat.sub_diag in H2. injection H2 as <-. injection Hx2 as <-.
    apply (Hl g1); [|done]. rewrite last_lookup.
    by replace (pred (length gs)) with j by lia.
Qed.

Lemma detect_inv_init : detect_inv rect_top w lstate_init.
Proof.
  split; [constructor|]. split; [|done].
  intros j g1 g2 x1 x2 H. cbn in H. by rewrite lookup_nil in H.
Qed.

Lemma detect_inv_step st x :
  detect_inv rect_top w st -> detect_inv rect_top w (detect_step rect_top w st x).
Proof.
  intros (Hok & Hap & Hy & He). unfold detect_step.
  fold (rounded_top rect_top w x).
  destruct (currentLine st) as [|h r] eqn:El.
  - (* the first word *)
    cbn [head fmap option_fmap option_map] in Hy. rewrite Hy. rewrite (He eq_refl).
    split; [|split; [|done]]; unfold all_groups; cbn.
    + apply Forall_singleton. constructor.
    + intros j g1 g2 x1 x2 _ H2. destruct j; cbn in H2; by rewrite ?lookup_nil in H2.
  - cbn [head fmap option_fmap option_map] in Hy. rewrite Hy.
    unfold all_groups in Hok, Hap. rewrite El in Hok, Hap.
    destruct (Z.abs (rounded_top rect_top w x - rounded_top rect_top w h) <? 5)%Z eqn:E.
    + apply Z.ltb_lt in E.
      split; [|split; [|split; [done|done]]];
        unfold all_groups; cbn [lineGroups currentLine app].
      * apply Forall_app in Hok as [Hg Hc]. apply Forall_app. split; [done|].
        apply Forall_singleton. rewrite Forall_singleton in Hc.
        change (Forall (fun y => (Z.abs (rounded_top rect_top w y - rounded_top rect_top w h) < 5)%Z)
                       (r ++ [x])).
        change (Forall (fun y => (Z.abs (rounded_top rect_top w y - rounded_top rect_top w h) < 5)%Z) r)
          in Hc.
        apply Forall_app. split; [done|]. by apply Forall_singleton.
      * by eapply lines_apart_same_head.
    + apply Z.ltb_ge in E.
      split; [|split; [|split; [done|done]]];
        unfold all_groups; cbn [lineGroups currentLine app].
      * apply Forall_app. split; [done|]. apply Forall_singleton. constructor.
      * apply lines_apart_snoc; [done|].
        intros g1 x1 Hl Hh. rewrite last_snoc in Hl. injection Hl as <-.
        by injection Hh as <-.
Qed.

Lemma detect_inv_fold l : forall st,
  detect_inv rect_top w st ->
  detect_inv rect_top w (fold_left (detect_step rect_top w) l st).
Proof.
  induction l as [|x l IH]; intros st H; cbn [fold_left]; [done|].
  by apply IH, detect_inv_step.
Qed.

Lemma detect_lines_all_groups allWords :
  detect_lines rect_top w allWords =
  all_groups (fold_left (detect_step rect_top w) allWords lstate_init).
Proof.
  unfold detect_lines, all_groups.
  destruct (currentLine _); [by rewrite app_nil_r|done].
Qed.

Lemma length_concat_nonempty (gs : list (list nat)) :
  Forall (fun g => g <> []) gs -> length gs <= length (concat gs).
Proof.
  induction 1 as [|g gs Hg _ IH]; [done|]. cbn [concat length].
  rewrite length_app. destruct g; [done|]. cbn. lia.
Qed.

Lemma detect_lines_line_ok allWords :
  Forall (line_ok rect_top w) (detect_lines rect_top w allWords).
Proof.
  rewrite detect_lines_all_groups.
  by destruct (detect_inv_fold allWords _ detect_inv_init) as [H _].
Qed.

(** X5: every detected line is non-empty and each of its words has a
    rounded top less than 5 away from that of the line's first word (the
    reference is the first word, not the previous one); there are never
    more lines than words. *)
Theorem detected_lines_cluster_on_first_word (allWords : list nat) :
  Forall (line_ok rect_top w) (detect_lines rect_top w allWords) /\
  length (detect_lines rect_top w allWords) <= length allWords.
Proof.
  pose proof (detect_lines_line_ok allWords) as H.
  split; [done|].
  rewrite <- (detect_lines_concat rect_top w allWords) at 2.
  apply length_concat_nonempty.
  eapply Forall_impl; [exact H|]. by intros [|x g].
Qed.

(** X6: a new line is started only by a word whose rounded top is at
    least 5 away from the first word of the line before it. *)
Theorem consecutive_lines_are_apart (allWords : list nat) :
  lines_apart rect_top w (detect_lines rect_top w allWords).
Proof.
  rewrite detect_lines_all_groups.
  by destruct (detect_inv_fold allWords _ detect_inv_init) as (_ & H & _).
Qed.

End LineShape.

(** ** STEP 2, exactly *)

Lemma set_expectedGap_None_fresh cls i d cs :
  set_expectedGap None (set_children cs (fresh_span cls i d)) =
  set_children cs (fresh_span cls i d).
Proof. reflexivity. Qed.

Section Step2Exact.

Variable fl : Q -> Q.

Variable cc wc : string.

(** The world after [build_char]. *)
Lemma build_char_eq wordSpan mw mc i w :
  (0 < i -> is_Some (chars mw !! (i - 1))) ->
  build_char fl cc wordSpan mw mc i w =
  Some (next_id w,
        with_heap
          (alter (fun s => set_children (children s ++ [Ref (next_id w)]) s) wordSpan
             (<[next_id w := char_span fl cc mw i mc]> (heap w)))
          (alloc (char_span fl cc mw i mc) w)).
Proof.
  intros Hi. unfold build_char, span_set_textContent, span_appendChild.
  rewrite bind_unfold, createSpan_eq, bind_unfold, update_span_eq.
  cbn [heap alloc with_heap]. rewrite alter_insert_eq.
  rewrite bind_unfold. unfold char_span, char_gap.
  destruct (0 <? i) eqn:E.
  - apply Nat.ltb_lt in E. destruct (Hi E) as [p Hp]. rewrite Hp.
    rewrite update_span_eq. cbn [heap alloc with_heap]. rewrite alter_insert_eq.
    rewrite bind_unfold, update_span_eq. reflexivity.
  - rewrite ret_unfold, bind_unfold, update_span_eq. reflexivity.
Qed.

(** The characters of one word, from index [i] on, appended to the word
    span [ws]. *)
Lemma build_chars_wp ws mw (l : list MeasuredChar) : forall i w,
  ws < next_id w ->
  (forall k mc, l !! k = Some mc -> chars mw !! (i + k) = Some mc) ->
  wp (collect_from (build_char fl cc ws mw) i l)
     (fun cs w' =>
        cs = seq (next_id w) (length l) /\
        next_id w' = next_id w + length l /\
        el_children w' = el_children w /\ ext w w' /\
        heap w' !! ws =
          (fun s => set_children (children s ++ map Ref cs) s) <$> heap w !! ws /\
        (forall k mc, l !! k = Some mc ->
           heap w' !! (next_id w + k) = Some (char_span fl cc mw (i + k) mc)) /\
        (forall id, id <> ws -> (id < next_id w \/ next_id w + length l <= id) ->
           heap w' !! id = heap w !! id)) w.
Proof.
  induction l as [|mc l IH]; intros i w Hws Hl; cbn [collect_from].
  - apply wp_ret. cbn [length seq map]. rewrite Nat.add_0_r.
    split; [done|]. split; [done|]. split; [done|]. split; [apply ext_refl|].
    split.
    { destruct (heap w !! ws) as [s|]; [|done]. cbn. f_equal.
      rewrite app_nil_r. by destruct s. }
    split; [|done]. intros k mc' H. by rewrite lookup_nil in H.
  - apply wp_bind. eapply wp_intro.
    { apply build_char_eq. intros Hpos. apply lookup_lt_is_Some.
      pose proof (Hl 0 mc eq_refl) as H0. apply lookup_lt_Some in H0. lia. }
    cbn beta. apply wp_bind.
    match goal with |- wp _ _ ?w1 => set (w1' := w1) end.
    eapply wp_mono; [|apply (IH (S i) w1')].
    + intros cs w' (Hcs & Hn & Hc & He & Hw & Hch & Hfr). apply wp_ret.
      cbn [next_id with_heap alloc w1'] in Hcs, Hn, Hw, Hch, Hfr.
      cbn [heap with_heap alloc w1'] in Hw, Hfr.
      split; [by rewrite Hcs|]. split; [cbn [length]; lia|].
      split; [by rewrite Hc|].
      split; [eapply ext_trans; [|exact He]; repeat split; cbn; lia|].
      split.
      { rewrite Hw, lookup_alter_eq, lookup_insert_ne by lia.
        destruct (heap w !! ws) as [s|]; [|done]. cbn. f_equal.
        unfold set_children. cbn. by rewrite <- app_assoc, Hcs. }
      split.
      * intros k mc' Hk. destruct k as [|k]; cbn in Hk.
        -- injection Hk as <-. rewrite Nat.add_0_r, Nat.add_0_r.
           rewrite Hfr by lia.
           rewrite lookup_alter_ne by lia. apply lookup_insert_eq.
        -- replace (next_id w + S k) with (S (next_id w) + k) by lia.
           replace (i + S k) with (S i + k) by lia. by apply Hch.
      * intros id Hne Hid. cbn [length] in Hid.
        rewrite Hfr by (try done; lia).
        rewrite lookup_alter_ne by done. apply lookup_insert_ne. lia.
    + cbn. lia.
    + intros k mc' Hk. replace (S i + k) with (i + S k) by lia. by apply Hl.
Qed.

(** The world after [build_word]. *)
Lemma build_word_effect mw j w :
  wp (build_word fl cc wc mw j)
     (fun b w' =>
        b = (next_id w, noSpaceBefore mw, seq (S (next_id w)) (length (chars mw))) /\
        next_id w' = S (next_id w) + length (chars mw) /\
        el_children w' = el_children w /\ ext w w' /\
        heap w' !! next_id w =
          Some (word_span wc j (seq (S (next_id w)) (length (chars mw)))) /\
        (forall i mc, chars mw !! i = Some mc ->
           heap w' !! (S (next_id w) + i) = Some (char_span fl cc mw i mc)) /\
        (forall id, (id < next_id w \/ S (next_id w) + length (chars mw) <= id) ->
           heap w' !! id = heap w !! id)) w.
Proof.
  unfold build_word.
  apply wp_bind. eapply wp_intro; [apply createSpan_eq|]. cbn beta.
  apply wp_bind. unfold collect.
  eapply wp_mono; [|apply build_chars_wp; [cbn; lia|by intros k mc H]].
  intros cs w' (Hcs & Hn & Hc & He & Hw & Hch & Hfr). apply wp_ret.
  cbn [next_id heap alloc] in *.
  split; [by rewrite Hcs|]. split; [done|]. split; [done|].
  split; [eapply ext_trans; [|exact He]; repeat split; cbn; lia|].
  split.
  { rewrite Hw, lookup_insert_eq. cbn. by rewrite Hcs. }
  split; [exact Hch|].
  intros id Hid. rewrite Hfr by lia. apply lookup_insert_ne. lia.
Qed.

End Step2Exact.

Lemma next_after_ge mws : forall n, n <= next_after n mws.
Proof.
  induction mws as [|mw mws IH]; intros n; cbn [next_after]; [lia|].
  specialize (IH (S n + length (chars mw))). lia.
Qed.

Lemma built_heap_ok_frame fl cc wc mws : forall j n (h h' : gmap nat span),
  (forall id, n <= id < next_after n mws -> h' !! id = h !! id) ->
  built_heap_ok fl cc wc j n mws h -> built_heap_ok fl cc wc j n mws h'.
Proof.
  induction mws as [|mw mws IH]; intros j n h h' Hfr; cbn [built_heap_ok next_after] in *;
    [done|].
  intros (Hw & Hc & Hr).
  pose proof (next_after_ge mws (S n + length (chars mw))) as Hge.
  split; [rewrite Hfr by lia; exact Hw|]. split.
  - intros i mc Hi. rewrite Hfr; [by apply Hc|].
    apply lookup_lt_Some in Hi. lia.
  - eapply IH; [|exact Hr]. intros id Hid. apply Hfr. lia.
Qed.

Section Step2Words.

Variable fl : Q -> Q.

Variable cc wc : string.

(** The world after the outer loop of STEP 2. *)
Lemma build_words_effect mws : forall j w,
  wp (collect_from (build_word fl cc wc) j mws)
     (fun built w' =>
        built = built_from (next_id w) mws /\
        next_id w' = next_after (next_id w) mws /\
        el_children w' = el_children w /\ ext w w' /\
        built_heap_ok fl cc wc j (next_id w) mws (heap w') /\
        (forall id, (id < next_id w \/ next_after (next_id w) mws <= id) ->
           heap w' !! id = heap w !! id)) w.
Proof.
  induction mws as [|mw mws IH]; intros j w; cbn [collect_from].
  - apply wp_ret. cbn [built_from next_after built_heap_ok].
    split; [done|]. split; [done|]. split; [done|]. by split; [apply ext_refl|].
  - apply wp_bind. eapply wp_mono; [|apply build_word_effect].
    intros b w1 (Hb & Hn1 & Hc1 & He1 & Hw1 & Hch1 & Hfr1). cbn beta.
    apply wp_bind. eapply wp_mono; [|apply (IH (S j) w1)].
    intros built w' (Hbu & Hn & Hc & He & Hok & Hfr). apply wp_ret.
    rewrite Hn1 in Hbu, Hn, Hok, Hfr.
    pose proof (next_after_ge mws (S (next_id w) + length (chars mw))) as Hge.
    cbn [built_from next_after built_heap_ok].
    split; [by rewrite Hb, Hbu|]. split; [done|]. split; [congruence|].
    split; [by eapply ext_trans|].
    split; [|intros id Hid; rewrite Hfr by lia; apply Hfr1; lia].
    split; [rewrite Hfr by lia; exact Hw1|]. split; [|exact Hok].
    intros i mc Hi. rewrite Hfr; [by apply Hch1|].
    apply lookup_lt_Some in Hi. lia.
Qed.

(** After STEP 2 on a store that was empty from [n] on, an expected gap is
    found on the characters after the first of a word and nowhere else. *)
Lemma gaps_after_build mws : forall j n (h : gmap nat span),
  built_heap_ok fl cc wc j n mws h ->
  (forall id, next_after n mws <= id -> h !! id = None) ->
  forall id, n <= id ->
    data_expectedGap (default empty_span (h !! id)) <> None ->
    gapped_ids n mws id.
Proof.
  induction mws as [|mw mws IH]; intros j n h Hok Hno id Hid Hgap;
    cbn [built_heap_ok next_after gapped_ids] in *.
  - by rewrite Hno in Hgap by lia.
  - destruct Hok as (Hw & Hc & Hr).
    destruct (decide (id = n)) as [->|Hne].
    { by rewrite Hw in Hgap. }
    destruct (decide (id < S n + length (chars mw))) as [Hlt|Hge].
    + left. destruct (lookup_lt_is_Some_2 (chars mw) (id - S n)) as [mc Hmc]; [lia|].
      pose proof (Hc _ _ Hmc) as Hs.
      replace (S n + (id - S n)) with id in Hs by lia. rewrite Hs in Hgap.
      cbn in Hgap. unfold char_gap in Hgap.
      destruct (0 <? id - S n) eqn:E; [|done]. apply Nat.ltb_lt in E. lia.
    + right. eapply IH; [exact Hr|exact Hno|lia|exact Hgap].
Qed.

Lemma words_children_after_build mws : forall j n w,
  built_heap_ok fl cc wc j n mws (heap w) -> words_children n mws w.
Proof.
  induction mws as [|mw mws IH]; intros j n w Hok; cbn [built_heap_ok words_children] in *;
    [done|].
  destruct Hok as (Hw & _ & Hr). split; [|by eapply IH].
  unfold span_at. by rewrite Hw.
Qed.

End Step2Words.

(** ** STEP 4, exactly *)

Lemma kerned_refl fl s : kerned fl s s.
Proof. by repeat split. Qed.

Lemma kerned_trans fl s1 s2 s3 : kerned fl s1 s2 -> kerned fl s2 s3 -> kerned fl s1 s3.
Proof.
  intros (Hs1 & Hm1 & Hg1) (Hs2 & Hm2 & Hg2). split; [congruence|].
  split; [auto|]. intros Hg. rewrite <- (Hg1 Hg). apply Hg2.
  by rewrite (Hg1 Hg).
Qed.

Lemma kern_span_gapless fl positions i s :
  data_expectedGap (kern_span fl positions i s) = None.
Proof.
  unfold kern_span. by destruct (data_expectedGap s) eqn:E.
Qed.

Lemma kern_span_kerned fl positions i s : kerned fl s (kern_span fl positions i s).
Proof.
  unfold kern_span. destruct (data_expectedGap s) as [g|] eqn:E;
    [|apply kerned_refl].
  split; [|split; [|intros H; congruence]].
  - by destruct (kern_delta fl positions i g) as [d|]; [destruct (Qltb (Qabs d) 20)|].
  - intros Hm. destruct (kern_delta fl positions i g) as [d|]; [|exact Hm].
    destruct (Qltb (Qabs d) 20) eqn:Ed; [|exact Hm].
    right. exists d. split; [by apply Qltb_lt|done].
Qed.

Lemma element_children_Refs (l : list nat) : element_children (map Ref l) = l.
Proof.
  unfold element_children. induction l as [|x l IH]; [done|].
  cbn. by rewrite IH.
Qed.

Section Step4Exact.

Variable fl : Q -> Q.

Variable rect_left : world -> nat -> Q.

Lemma kern_loop_kerned cs positions n : forall j w,
  j + n <= length cs ->
  exists h',
    for_from n j (kern_char fl cs positions) w = Some (tt, with_heap h' w) /\
    forall id, kerned fl (span_at w id) (default empty_span (h' !! id)).
Proof.
  induction n as [|n IH]; intros j w Hle; cbn [for_from].
  - exists (heap w). split; [by rewrite with_heap_id|]. intros id. apply kerned_refl.
  - destruct (lookup_lt_is_Some_2 cs j) as [c Hc]; [lia|].
    rewrite bind_unfold, (kern_char_eq _ _ _ _ c) by done.
    destruct (IH (S j) (with_heap (alter (kern_span fl positions j) c (heap w)) w))
      as (h' & Hrun & Hk); [lia|].
    exists h'. split; [by rewrite Hrun|].
    intros id. eapply kerned_trans; [|apply Hk].
    unfold span_at. cbn [heap with_heap].
    destruct (decide (c = id)) as [->|Hne].
    + rewrite lookup_alter_eq. destruct (heap w !! id) as [s|]; cbn.
      * apply kern_span_kerned.
      * apply kerned_refl.
    + rewrite lookup_alter_ne by done. apply kerned_refl.
Qed.

(** One word: nothing but kerning happens to any span, and the characters
    after the first lose their annotation. *)
Lemma compensate_word_effect wordSpan w :
  exists h',
    compensate_word fl rect_left wordSpan w = Some (tt, with_heap h' w) /\
    (forall id, kerned fl (span_at w id) (span_at (with_heap h' w) id)) /\
    forall m,
      children (span_at w wordSpan) = map Ref (seq (S wordSpan) m) ->
      forall i, 1 <= i < m ->
        data_expectedGap (span_at (with_heap h' w) (S wordSpan + i)) = None.
Proof.
  unfold compensate_word.
  destruct (length (element_children (children (span_at w wordSpan))) <? 2) eqn:E.
  - exists (heap w). rewrite with_heap_id. split; [done|].
    split; [intros; apply kerned_refl|].
    intros m Hm i Hi. rewrite Hm, element_children_Refs, length_seq in E.
    apply Nat.ltb_lt in E. lia.
  - apply Nat.ltb_ge in E. unfold for_range.
    set (cs := element_children (children (span_at w wordSpan))) in *.
    destruct (kern_loop_kerned cs (map (rect_left w) cs) (length cs - 1) 1 w)
      as (h' & Hrun & Hk); [lia|].
    exists h'. split; [exact Hrun|]. split; [exact Hk|].
    intros m Hm i Hi. unfold cs in *. rewrite Hm, element_children_Refs in *.
    rewrite length_seq in *.
    destruct (kern_loop fl (seq (S wordSpan) m)
                (map (rect_left w) (seq (S wordSpan) m)) (m - 1) 1 w)
      as (h2 & Hrun2 & Hh2); [apply NoDup_seq|rewrite length_seq; lia|].
    rewrite Hrun in Hrun2. injection Hrun2 as ->.
    unfold span_at. cbn [heap with_heap].
    rewrite (Hh2 i (S wordSpan + i)) by (apply lookup_seq; lia).
    rewrite bool_decide_eq_true_2 by lia.
    destruct (heap w !! (S wordSpan + i)) as [s|]; cbn; [|done].
    apply kern_span_gapless.
Qed.

Lemma words_children_kerned mws : forall n w w',
  (forall id, kerned fl (span_at w id) (span_at w' id)) ->
  words_children n mws w -> words_children n mws w'.
Proof.
  induction mws as [|mw mws IH]; intros n w w' Hk; cbn [words_children]; [done|].
  intros [Hc Hr]. split; [|by eapply IH].
  destruct (Hk n) as (Hs & _). unfold shape in Hs.
  injection Hs as _ _ _ ->. exact Hc.
Qed.

(** All words: nothing but kerning happens to any span, and no character
    keeps its annotation. *)
Lemma compensate_all_effect mws : forall n idx w,
  words_children n mws w ->
  exists h',
    forEach_from (fun wordSpan (_ : nat) => compensate_word fl rect_left wordSpan) idx
      (map word_id (built_from n mws)) w = Some (tt, with_heap h' w) /\
    (forall id, kerned fl (span_at w id) (span_at (with_heap h' w) id)) /\
    forall id, gapped_ids n mws id ->
      data_expectedGap (span_at (with_heap h' w) id) = None.
Proof.
  induction mws as [|mw mws IH]; intros n idx w Hwc;
    cbn [built_from map forEach_from gapped_ids words_children] in *.
  - exists (heap w). rewrite with_heap_id. split; [done|].
    split; [intros; apply kerned_refl|done].
  - destruct Hwc as [Hc Hr].
    change (word_id (n, noSpaceBefore mw, seq (S n) (length (chars mw)))) with n.
    destruct (compensate_word_effect n w) as (h1 & Hrun1 & Hk1 & Hg1).
    rewrite bind_unfold, Hrun1.
    destruct (IH (S n + length (chars mw)) (S idx) (with_heap h1 w))
      as (h2 & Hrun2 & Hk2 & Hg2).
    { by eapply words_children_kerned. }
    rewrite with_heap_with_heap in *.
    exists h2. split; [exact Hrun2|]. split.
    + intros id. eapply kerned_trans; [apply Hk1|apply Hk2].
    + intros id [Hid|Hid]; [|by apply Hg2].
      destruct (Hk2 id) as (_ & _ & Hsame).
      replace id with (S n + (id - S n)) in * by lia.
      rewrite Hsame; apply (Hg1 _ Hc); lia.
Qed.

End Step4Exact.

(** ** STEP 6, exactly *)

Lemma wrap_lines_effect lc s groups : forall idx w,
  wp (collect_from (wrap_line lc s) idx groups)
     (fun allLines w' =>
        allLines = seq (next_id w) (length groups) /\
        next_id w' = next_id w + length groups /\
        el_children w' = el_children w ++ map Ref allLines /\
        ext w w' /\
        (forall k g, groups !! k = Some g ->
           heap w' !! (next_id w + k) =
           Some (line_span lc (idx + k) (interleave s g))) /\
        (forall id, (id < next_id w \/ next_id w + length groups <= id) ->
           heap w' !! id = heap w !! id)) w.
Proof.
  induction groups as [|g groups IH]; intros idx w; cbn [collect_from].
  - apply wp_ret. cbn [length seq map]. rewrite app_nil_r, Nat.add_0_r.
    split; [done|]. split; [done|]. split; [done|]. split; [apply ext_refl|].
    split; [|done]. intros k g H. by rewrite lookup_nil in H.
  - apply wp_bind. eapply wp_intro; [apply wrap_line_eq|]. cbn beta.
    apply wp_bind.
    match goal with |- wp _ _ ?w1 => set (w1' := w1) end.
    eapply wp_mono; [|apply (IH (S idx) w1')].
    intros ls w' (Hls & Hn & Hc & He & Hk & Hfr). apply wp_ret.
    assert (Hheap : heap w1' =
                    <[next_id w := line_span lc idx (interleave s g)]> (heap w)).
    { unfold w1', el_append_all, span_append_all, with_children, with_heap, alloc.
      cbn [heap next_id]. by rewrite alter_insert_eq. }
    assert (Hnext : next_id w1' = S (next_id w)) by done.
    assert (Hkids : el_children w1' = el_children w ++ [Ref (next_id w)]) by done.
    rewrite Hnext in Hls, Hn, Hk, Hfr. cbn [length].
    split; [by rewrite Hls|]. split; [lia|].
    split; [by rewrite Hc, Hkids, Hls, <- app_assoc|].
    split; [eapply ext_trans; [|exact He]; repeat split; cbn; lia|].
    split.
    + intros k g' Hg'. destruct k as [|k]; cbn in Hg'.
      * injection Hg' as <-. rewrite !Nat.add_0_r.
        rewrite Hfr by lia. rewrite Hheap. apply lookup_insert_eq.
      * replace (next_id w + S k) with (S (next_id w) + k) by lia.
        replace (idx + S k) with (S idx + k) by lia. by apply Hk.
    + intros id Hid. rewrite Hfr by lia. rewrite Hheap.
      apply lookup_insert_ne. lia.
Qed.

(** ** The whole split, exactly *)

Section SplitExact.

Variable fl : Q -> Q.
Variable serialize_fragment : list onode -> jsstring.
Variable parse_fragment : jsstring -> list onode.

Variable range_left : nat -> nat -> Q.
Variable rect_left : world -> nat -> Q.
Variable rect_top : world -> nat -> Q.

Lemma splitText_exact_wp (e : element) (opts : SplitTextOptions) :
  wp (splitText_body fl serialize_fragment parse_fragment
      range_left rect_left rect_top (kids e) opts)
     (fun r w =>
        exists w5,
          split_exact fl (default "split-char" (charClass opts))
                      (default "split-word" (wordClass opts))
                      (default "split-line" (lineClass opts))
                      (measureOriginalText range_left (kids e))
                      (detect_lines rect_top) e r w5 w)
     (world_of e).
Proof.
  unfold splitText_body, split_steps, build_and_insert, collect.
  set (cc := default "split-char" (charClass opts)).
  set (wc := default "split-word" (wordClass opts)).
  set (lc := default "split-line" (lineClass opts)).
  set (mws := measureOriginalText range_left (kids e)).
  apply wp_bind, wp_modify. apply wp_bind, wp_modify.
  apply wp_bind, wp_bind.
  eapply wp_mono; [|apply build_words_effect].
  intros built w3 (Hb & Hn3 & Hc3 & He3 & Hok3 & Hfr3). cbn beta.
  cbn [next_id with_children with_attrs world_of] in Hb, Hn3, Hok3, Hfr3.
  cbn [heap with_children with_attrs world_of] in Hfr3.
  subst built.
  apply wp_bind. eapply wp_intro; [apply append_words_el|]. apply wp_ret.
  set (w4 := el_append_all _ w3).
  destruct (compensate_all_effect fl rect_left mws 0 0 w4)
    as (h5 & Hrun5 & Hk5 & Hg5).
  { eapply (words_children_after_build fl cc wc). exact Hok3. }
  apply wp_bind. eapply wp_intro; [exact Hrun5|].
  set (w5 := with_heap h5 w4) in *.
  apply wp_bind. eapply wp_intro; [reflexivity|].
  apply wp_bind, wp_modify.
  apply wp_bind. eapply wp_mono; [|apply wrap_lines_effect].
  intros ls w7 (Hls & Hn7 & Hc7 & He7 & Hk7 & Hfr7). apply wp_ret.
  cbn [next_id heap el_children with_children] in Hls, Hn7, Hc7, Hk7, Hfr7.
  assert (Hn5 : next_id w5 = next_after 0 mws) by exact Hn3.
  rewrite Hn5 in *.
  assert (Hno : forall id, next_after 0 mws <= id -> heap w3 !! id = None).
  { intros id Hid. rewrite Hfr3 by (right; exact Hid). reflexivity. }
  exists w5. unfold split_exact. cbn [res_words res_chars res_lines].
  split; [done|]. split; [done|]. split; [done|]. split; [done|].
  split; [done|]. split; [by rewrite Hc7, Hls|].
  split.
  { exists (heap w3). split; [done|]. split; [done|]. intros id. apply (Hk5 id). }
  split.
  { intros id.
    destruct (data_expectedGap (span_at w4 id)) as [g|] eqn:Eg.
    - apply Hg5. eapply (gaps_after_build fl cc wc); [exact Hok3|exact Hno|lia|].
      change (default empty_span (heap w3 !! id)) with (span_at w4 id).
      by rewrite Eg.
    - destruct (Hk5 id) as (_ & _ & Hsame). by rewrite (Hsame Eg). }
  split; [exact Hk7|]. exact Hfr7.
Qed.

Lemma splitText_exact (e : element) (opts : SplitTextOptions) :
  exists r w5 w,
    splitText fl serialize_fragment parse_fragment
        range_left rect_left rect_top e opts = Some (r, w) /\
    split_exact fl (default "split-char" (charClass opts))
                (default "split-word" (wordClass opts))
                (default "split-line" (lineClass opts))
                (measureOriginalText range_left (kids e))
                (detect_lines rect_top) e r w5 w.
Proof.
  destruct (wp_elim _ _ _ (splitText_exact_wp e opts)) as (r & w & Hrun & w5 & H).
  by exists r, w5, w.
Qed.

End SplitExact.

(** ** Rounding *)

Section Rounding.

Variable fl : Q -> Q.

(** What the bound on the margins needs of the rounding: it is monotone,
    and an integer that is a double is left as it is. *)
Hypothesis fl_monotone : forall x y : Q, (x <= y)%Q -> (fl x <= fl y)%Q.
Hypothesis fl_integer :
  forall k : Z, (Z.abs k <= 2 ^ 53)%Z -> (fl (inject_Z k) == inject_Z k)%Q.

Lemma round2_within_bound (delta : Q) :
  (Qabs delta < 20)%Q -> (Qabs (round2 fl delta) <= 20)%Q.
Proof.
  intros H. apply Qabs_Qlt_condition in H as [Hlo Hhi].
  unfold round2, Math_round.
  assert (Hy : (inject_Z (-2000) <= fl (delta * 100) <= inject_Z 2000)%Q).
  { split.
    - rewrite <- (fl_integer (-2000)) by (cbn; lia).
      apply fl_monotone. change (inject_Z (-2000)) with (-2000 # 1)%Q. lra.
    - rewrite <- (fl_integer 2000) by (cbn; lia).
      apply fl_monotone. change (inject_Z 2000) with (2000 # 1)%Q. lra. }
  destruct Hy as [Hylo Hyhi].
  assert (Hz : (-2000 <= Qfloor (fl (delta * 100) + (1 # 2)) <= 2000)%Z).
  { split.
    - assert (Hq : (inject_Z (-2000) <= fl (delta * 100) + (1 # 2))%Q) by lra.
      apply Qfloor_resp_le in Hq. by rewrite Qfloor_Z in Hq.
    - assert (Hq : (fl (delta * 100) + (1 # 2) <= 4001 # 2)%Q).
      { change (inject_Z 2000) with (2000 # 1)%Q in Hyhi. lra. }
      apply Qfloor_resp_le in Hq. exact Hq. }
  set (z := Qfloor (fl (delta * 100) + (1 # 2))) in *.
  assert (Hlo' : (inject_Z (-2000) <= inject_Z z)%Q) by (rewrite <- Zle_Qle; lia).
  assert (Hhi' : (inject_Z z <= inject_Z 2000)%Q) by (rewrite <- Zle_Qle; lia).
  change (inject_Z (-2000)) with (-2000 # 1)%Q in Hlo'.
  change (inject_Z 2000) with (2000 # 1)%Q in Hhi'.
  assert (H : (inject_Z z / 100 == inject_Z z * (1 # 100))%Q) by (unfold Qdiv; reflexivity).
  apply Qabs_Qle_condition. split.
  - assert (H20 : (- (20) == inject_Z (-20))%Q) by reflexivity.
    rewrite H20, <- (fl_integer (-20)) by (cbn; lia).
    apply fl_monotone. rewrite H. change (inject_Z (-20)) with (-20 # 1)%Q. lra.
  - assert (H20 : (20 == inject_Z 20)%Q) by reflexivity.
    rewrite H20, <- (fl_integer 20) by (cbn; lia).
    apply fl_monotone. rewrite H. change (inject_Z 20) with (20 # 1)%Q. lra.
Qed.

End Rounding.

(** ** Reading the store after a split *)

Section BuiltLookup.

Variable fl : Q -> Q.

Variable cc wc : string.

Lemma built_lookup mws : forall j0 n (h : gmap nat span) j mw,
  built_heap_ok fl cc wc j0 n mws h -> mws !! j = Some mw ->
  exists wid,
    built_from n mws !! j =
      Some (wid, noSpaceBefore mw, seq (S wid) (length (chars mw))) /\
    n <= wid /\ S wid + length (chars mw) <= next_after n mws /\
    h !! wid = Some (word_span wc (j0 + j) (seq (S wid) (length (chars mw)))) /\
    forall i mc, chars mw !! i = Some mc ->
      h !! (S wid + i) = Some (char_span fl cc mw i mc).
Proof.
  induction mws as [|mw0 mws IH]; intros j0 n h j mw Hok Hj;
    [by rewrite lookup_nil in Hj|].
  cbn [built_heap_ok built_from next_after] in *. destruct Hok as (Hw & Hc & Hr).
  pose proof (next_after_ge mws (S n + length (chars mw0))) as Hge.
  destruct j as [|j]; cbn in Hj.
  - injection Hj as <-. exists n. rewrite Nat.add_0_r.
    split; [done|]. split; [done|]. split; [done|]. by split.
  - destruct (IH (S j0) _ h j mw Hr Hj) as (wid & Hb & Hn & Hm & Hws & Hcs).
    exists wid. split; [done|]. split; [lia|]. split; [done|].
    split; [|done]. by replace (j0 + S j) with (S j0 + j) by lia.
Qed.

Lemma margins_after_build mws : forall j n (h : gmap nat span),
  built_heap_ok fl cc wc j n mws h ->
  (forall id, next_after n mws <= id -> h !! id = None) ->
  forall id, n <= id -> style_marginLeft (default empty_span (h !! id)) = None.
Proof.
  induction mws as [|mw mws IH]; intros j n h Hok Hno id Hid;
    cbn [built_heap_ok next_after] in *.
  - by rewrite Hno by lia.
  - destruct Hok as (Hw & Hc & Hr).
    destruct (decide (id = n)) as [->|Hne]; [by rewrite Hw|].
    destruct (decide (id < S n + length (chars mw))) as [Hlt|Hge].
    + destruct (lookup_lt_is_Some_2 (chars mw) (id - S n)) as [mc Hmc]; [lia|].
      pose proof (Hc _ _ Hmc) as Hs.
      replace (S n + (id - S n)) with id in Hs by lia. by rewrite Hs.
    + eapply IH; [exact Hr|exact Hno|lia].
Qed.

Lemma gapped_ids_lookup mws : forall n id,
  gapped_ids n mws id ->
  exists j mw wid i,
    mws !! j = Some mw /\
    map word_id (built_from n mws) !! j = Some wid /\
    1 <= i < length (chars mw) /\ id = S wid + i.
Proof.
  induction mws as [|mw mws IH]; intros n id H; cbn [gapped_ids built_from] in *;
    [done|].
  destruct H as [H|H].
  - exists 0, mw, n, (id - S n). repeat split; try done; lia.
  - destruct (IH _ _ H) as (j & mw' & wid & i & Hj & Hw & Hi & Hid).
    by exists (S j), mw', wid, i.
Qed.

Lemma final_words_ok_of mws : forall j n (h2 : gmap nat span) w,
  built_heap_ok fl cc wc j n mws h2 ->
  (forall id, id < next_after n mws ->
     shape (span_at w id) = shape (default empty_span (h2 !! id))) ->
  final_words_ok n mws w.
Proof.
  induction mws as [|mw mws IH]; intros j n h2 w Hok Hs;
    cbn [built_heap_ok final_words_ok next_after] in *; [done|].
  destruct Hok as (Hw & Hc & Hr).
  pose proof (next_after_ge mws (S n + length (chars mw))) as Hge.
  split; [|split].
  - specialize (Hs n). rewrite Hw in Hs. unfold shape in Hs.
    assert (n < next_after (S n + length (chars mw)) mws) as Hlt by lia.
    by injection (Hs Hlt) as _ _ _ ->.
  - intros i mc Hi. specialize (Hs (S n + i)). rewrite (Hc _ _ Hi) in Hs.
    unfold shape in Hs.
    assert (S n + i < next_after (S n + length (chars mw)) mws) as Hlt.
    { apply lookup_lt_Some in Hi. lia. }
    specialize (Hs Hlt). injection Hs as _ _ _ Hch. exact Hch.
  - by eapply IH.
Qed.

Lemma chars_are_children_of_words mws : forall n w,
  final_words_ok n mws w ->
  concat (map snd (built_from n mws)) =
  concat (map (fun wid => element_children (children (span_at w wid)))
              (map word_id (built_from n mws))).
Proof.
  induction mws as [|mw mws IH]; intros n w Hok;
    cbn [final_words_ok built_from map concat] in *; [done|].
  destruct Hok as (Hw & _ & Hr).
  change (word_id (n, noSpaceBefore mw, seq (S n) (length (chars mw)))) with n.
  cbn [snd]. by rewrite Hw, element_children_Refs, (IH _ w Hr).
Qed.

End BuiltLookup.

Section SplitStructure.

Variable fl : Q -> Q.

Variable range_left : nat -> nat -> Q.
Variable rect_left : world -> nat -> Q.
Variable rect_top : world -> nat -> Q.

(** The spans of the words and characters in the final document. *)
Lemma split_exact_final cc wc lc mws lines_of e r w5 w :
  split_exact fl cc wc lc mws lines_of e r w5 w ->
  (forall id, id < next_after 0 mws -> span_at w id = span_at w5 id) /\
  (forall id, data_expectedGap (span_at w id) = None) /\
  (forall id, margin_ok fl (span_at w id)) /\
  (forall id m, style_marginLeft (span_at w id) = Some m -> gapped_ids 0 mws id).
Proof.
  intros (Hrw & Hrc & Hrl & Hn5 & Hn & Hel & (h2 & Hok & Hno & Hk) & Hg5 & Hl & Hfr).
  set (groups := lines_of w5 (map word_id (built_from 0 mws))) in *.
  assert (Hcase : forall id,
             span_at w id = span_at w5 id \/
             exists k cs, span_at w id = line_span lc k cs).
  { intros id. unfold span_at.
    destruct (decide (id < next_after 0 mws \/ next_after 0 mws + length groups <= id))
      as [Hid|Hid].
    - left. by rewrite Hfr.
    - right. destruct (lookup_lt_is_Some_2 groups (id - next_after 0 mws)) as [g Hg]; [lia|].
      pose proof (Hl _ _ Hg) as Hs.
      replace (next_after 0 mws + (id - next_after 0 mws)) with id in Hs by lia.
      rewrite Hs. by eexists _, _. }
  assert (Hm2 : forall id, style_marginLeft (default empty_span (h2 !! id)) = None).
  { intros id. eapply margins_after_build; [exact Hok|exact Hno|lia]. }
  split; [|split; [|split]].
  - intros id Hid. unfold span_at. by rewrite Hfr by (left; exact Hid).
  - intros id. destruct (Hcase id) as [->|(k & cs & ->)]; [apply Hg5|done].
  - intros id. destruct (Hcase id) as [->|(k & cs & ->)]; [|by left].
    destruct (Hk id) as (_ & Hm & _). apply Hm. left. apply Hm2.
  - intros id m Hm. destruct (Hcase id) as [Hsame|(k & cs & Hline)].
    + rewrite Hsame in Hm.
      destruct (data_expectedGap (default empty_span (h2 !! id))) as [g|] eqn:Eg.
      * eapply gaps_after_build; [exact Hok|exact Hno|lia|by rewrite Eg].
      * destruct (Hk id) as (_ & _ & Hs). rewrite (Hs Eg), Hm2 in Hm. done.
    + by rewrite Hline in Hm.
Qed.

End SplitStructure.

(** ** What a split leaves in the document *)

Lemma length_built_chars mws : forall n,
  length (concat (map snd (built_from n mws))) = length (concat (map chars mws)).
Proof.
  induction mws as [|mw mws IH]; intros n; [done|].
  cbn [built_from map concat snd]. by rewrite !length_app, length_seq, IH.
Qed.

Lemma length_built_from mws : forall n, length (built_from n mws) = length mws.
Proof.
  induction mws as [|mw mws IH]; intros n; [done|]. cbn. by rewrite IH.
Qed.

Section SplitResult.

Variable fl : Q -> Q.
Variable serialize_fragment : list onode -> jsstring.
Variable parse_fragment : jsstring -> list onode.

Variable range_left : nat -> nat -> Q.
Variable rect_left : world -> nat -> Q.
Variable rect_top : world -> nat -> Q.

(** X7: [words] has one span per measured word, in order. The span of word
    number [j] is exactly the span STEP 2 built (class, [data-index] [j],
    [inline-block], no margin, no annotation) with the word's character
    spans as its only children, and the span of its [i]-th unit has the
    character class, [data-index] [i], [inline-block] and the unit as its
    one text node. *)
Theorem split_builds_word_and_char_spans (e : element) (opts : SplitTextOptions) :
  exists r w,
    splitText fl serialize_fragment parse_fragment
        range_left rect_left rect_top e opts = Some (r, w) /\
    length (res_words r) = length (measureOriginalText range_left (kids e)) /\
    forall j mw,
      measureOriginalText range_left (kids e) !! j = Some mw ->
      exists wordSpan,
        res_words r !! j = Some wordSpan /\
        span_at w wordSpan =
          word_span (default "split-word" (wordClass opts)) j
            (seq (S wordSpan) (length (chars mw))) /\
        forall i mc, chars mw !! i = Some mc ->
          shape (span_at w (S wordSpan + i)) =
          shape (char_span fl (default "split-char" (charClass opts)) mw i mc).
Proof.
  destruct (splitText_exact fl serialize_fragment parse_fragment
      range_left rect_left rect_top e opts)
    as (r & w5 & w & Hrun & Hex).
  exists r, w. split; [done|].
  destruct (split_exact_final _ _ _ _ _ _ _ _ _ _ Hex) as (Hsame & _).
  destruct Hex as (Hrw & _ & _ & _ & _ & _ & (h2 & Hok & Hno & Hk) & _).
  split; [by rewrite Hrw, length_map, length_built_from|].
  intros j mw Hj.
  destruct (built_lookup _ _ _ _ _ _ _ _ _ Hok Hj) as (wid & Hb & _ & Hlt & Hw & Hc).
  exists wid. split; [by rewrite Hrw, list_lookup_fmap, Hb|]. split.
  - rewrite Hsame by lia.
    destruct (Hk wid) as (_ & _ & Hg). rewrite Hw in Hg. by apply Hg.
  - intros i mc Hi. rewrite Hsame by (apply lookup_lt_Some in Hi; lia).
    destruct (Hk (S wid + i)) as (Hs & _). by rewrite (Hc _ _ Hi) in Hs.
Qed.

(** X8: [chars] is the concatenation, word after word, of the character
    children of the spans in [words], and it has one span for every
    character of the original text that is not whitespace. *)
Theorem split_chars_follow_words (e : element) (opts : SplitTextOptions) :
  exists r w,
    splitText fl serialize_fragment parse_fragment
        range_left rect_left rect_top e opts = Some (r, w) /\
    res_chars r =
      concat (map (fun wordSpan => element_children (children (span_at w wordSpan)))
                  (res_words r)) /\
    length (res_chars r) = length (strip_whitespace (textContent (kids e))).
Proof.
  destruct (splitText_exact fl serialize_fragment parse_fragment
      range_left rect_left rect_top e opts)
    as (r & w5 & w & Hrun & Hex).
  exists r, w. split; [done|].
  destruct (split_exact_final _ _ _ _ _ _ _ _ _ _ Hex) as (Hsame & _).
  destruct Hex as (Hrw & Hrc & _ & _ & _ & _ & (h2 & Hok & Hno & Hk) & _).
  split.
  - rewrite Hrc, Hrw. eapply chars_are_children_of_words, final_words_ok_of; [exact Hok|].
    intros id Hid. rewrite Hsame by done. by destruct (Hk id) as (Hs & _).
  - rewrite Hrc, length_built_chars, measure_recorded, length_visible_of_nodes.
    reflexivity.
Qed.

(** X9: when [splitText] returns, no span of the document carries an
    expected-gap annotation any more. *)
Theorem split_leaves_no_expected_gap (e : element) (opts : SplitTextOptions) :
  exists r w,
    splitText fl serialize_fragment parse_fragment
        range_left rect_left rect_top e opts = Some (r, w) /\
    forall id, data_expectedGap (span_at w id) = None.
Proof.
  destruct (splitText_exact fl serialize_fragment parse_fragment
      range_left rect_left rect_top e opts)
    as (r & w5 & w & Hrun & Hex).
  exists r, w. split; [done|].
  by destruct (split_exact_final _ _ _ _ _ _ _ _ _ _ Hex) as (_ & H & _).
Qed.

End SplitResult.

Section SplitMargins.

Variable fl : Q -> Q.
Variable serialize_fragment : list onode -> jsstring.
Variable parse_fragment : jsstring -> list onode.

Variable range_left : nat -> nat -> Q.
Variable rect_left : world -> nat -> Q.
Variable rect_top : world -> nat -> Q.

(** X10: a margin is only ever put on a character that is not the first of
    its word, and it is the two-decimal rounding of a delta below the
    bound; hence, the rounding to doubles being monotone and exact on the
    integers that are doubles, it is never more than 20 in absolute
    value. *)
Theorem split_margins_are_bounded
    (fl_monotone : forall x y : Q, (x <= y)%Q -> (fl x <= fl y)%Q)
    (fl_integer :
       forall k : Z, (Z.abs k <= 2 ^ 53)%Z -> (fl (inject_Z k) == inject_Z k)%Q)
    (e : element) (opts : SplitTextOptions) :
  exists r w,
    splitText fl serialize_fragment parse_fragment
        range_left rect_left rect_top e opts = Some (r, w) /\
    forall id m, style_marginLeft (span_at w id) = Some m ->
      (Qabs m <= 20)%Q /\
      (exists delta, (Qabs delta < 20)%Q /\ m = round2 fl delta) /\
      exists j mw wordSpan i,
        measureOriginalText range_left (kids e) !! j = Some mw /\
        res_words r !! j = Some wordSpan /\
        1 <= i < length (chars mw) /\ id = S wordSpan + i.
Proof.
  destruct (splitText_exact fl serialize_fragment parse_fragment
      range_left rect_left rect_top e opts)
    as (r & w5 & w & Hrun & Hex).
  exists r, w. split; [done|].
  destruct (split_exact_final _ _ _ _ _ _ _ _ _ _ Hex) as (_ & _ & Hm & Hg).
  destruct Hex as (Hrw & _).
  intros id m Hid.
  destruct (Hm id) as [Hnone|(delta & Hd & Hsome)]; [congruence|].
  assert (m = round2 fl delta) as -> by congruence.
  split; [by apply round2_within_bound|]. split; [by exists delta|].
  rewrite Hrw. by eapply gapped_ids_lookup, Hg.
Qed.

End SplitMargins.

(** X10 on "AV — A", with exact arithmetic. *)
Lemma split_margins_witness :
  exists r w,
    splitText (fun x => x) text_markup parse_text mono_left even_left flat_top
      (plain [65; 86; 32; 8212; 32; 65]%N) no_options = Some (r, w) /\
    forall id m, style_marginLeft (span_at w id) = Some m ->
      (Qabs m <= 20)%Q /\
      (exists delta, (Qabs delta < 20)%Q /\ m = round2 (fun x => x) delta) /\
      exists j mw wordSpan i,
        measureOriginalText mono_left (kids (plain [65; 86; 32; 8212; 32; 65]%N)) !! j
          = Some mw /\
        res_words r !! j = Some wordSpan /\
        1 <= i < length (chars mw) /\ id = S wordSpan + i.
Proof.
  apply (split_margins_are_bounded (fun x => x) text_markup parse_text
           mono_left even_left flat_top).
  - intros x y H. exact H.
  - intros k _. reflexivity.
Defined.


(** ** Lines and text of the split document *)

Lemma head_interleave s ws : head (interleave s ws) = Ref <$> head ws.
Proof. by destruct ws. Qed.

Lemma last_interleave s ws : last (interleave s ws) = Ref <$> last ws.
Proof.
  induction ws as [|x ws IH]; [done|]. cbn [interleave].
  destruct ws as [|y ws']; [done|].
  rewrite last_cons, last_app, IH, last_cons_cons.
  by destruct (last (y :: ws')) eqn:E; [|apply last_None in E].
Qed.

Lemma strip_whitespace_idemp t : strip_whitespace (strip_whitespace t) = strip_whitespace t.
Proof.
  unfold strip_whitespace. induction t as [|c t IH]; [done|].
  destruct (is_whitespace c) eqn:E.
  - by rewrite filter_cons_False by (rewrite E; done).
  - rewrite filter_cons_True by done. by rewrite filter_cons_True, IH by done.
Qed.

Lemma child_text_Static fuel w n :
  child_text fuel w (Static n) = concat (text_nodes_of n).
Proof. by destruct fuel. Qed.

Lemma child_text_text_child fuel w s :
  concat (map (child_text fuel w) (text_child s)) = s.
Proof.
  destruct s; [done|]. cbn [text_child map concat].
  rewrite child_text_Static. cbn [text_nodes_of concat]. by rewrite !app_nil_r.
Qed.

Lemma chars_text fuel w (l : list MeasuredChar) : forall base,
  (forall i mc, l !! i = Some mc ->
     children (span_at w (base + i)) = text_child (char mc)) ->
  concat (map (child_text (S fuel) w) (map Ref (seq base (length l)))) =
  concat (map char l).
Proof.
  induction l as [|mc l IH]; intros base H; [done|].
  cbn [length seq map concat child_text]. f_equal.
  - rewrite <- (Nat.add_0_r base), (H 0 mc eq_refl).
    apply child_text_text_child.
  - apply IH. intros i mc' Hi. replace (S base + i) with (base + S i) by lia.
    by apply H.
Qed.

Lemma words_text fuel mws : forall n w,
  final_words_ok n mws w ->
  concat (map (fun x => child_text (S (S fuel)) w (Ref x))
              (map word_id (built_from n mws))) =
  units_text mws.
Proof.
  induction mws as [|mw mws IH]; intros n w Hok; [done|].
  cbn [final_words_ok built_from map concat] in *.
  destruct Hok as (Hw & Hc & Hr).
  change (word_id (n, noSpaceBefore mw, seq (S n) (length (chars mw)))) with n.
  unfold units_text. cbn [map concat]. f_equal; [|by apply IH].
  cbn [child_text]. rewrite Hw. by apply chars_text.
Qed.

Lemma line_text_stripped fuel w s g :
  strip_whitespace (concat (map (child_text fuel w) (interleave s g))) =
  strip_whitespace (concat (map (fun x => child_text fuel w (Ref x)) g)).
Proof.
  induction g as [|x g IH]; [done|]. cbn [interleave map concat].
  rewrite !strip_whitespace_app. f_equal.
  destruct g as [|y g']; [done|].
  rewrite map_app, concat_app, strip_whitespace_app, IH.
  destruct (bool_decide (y ∈ s)); [done|].
  cbn [map concat]. unfold space_node. by rewrite child_text_Static.
Qed.

Lemma lines_text_stripped fuel w s groups : forall first,
  (forall k g, groups !! k = Some g ->
     children (span_at w (first + k)) = interleave s g) ->
  strip_whitespace
    (concat (map (child_text (S fuel) w) (map Ref (seq first (length groups))))) =
  strip_whitespace
    (concat (map (fun x => child_text fuel w (Ref x)) (concat groups))).
Proof.
  induction groups as [|g groups IH]; intros first H; [done|].
  cbn [length seq map concat child_text].
  rewrite map_app, concat_app, !strip_whitespace_app. f_equal.
  - rewrite <- (Nat.add_0_r first), (H 0 g eq_refl). apply line_text_stripped.
  - apply IH. intros k g' Hk. replace (S first + k) with (first + S k) by lia.
    by apply H.
Qed.

Section SplitLinesText.

Variable fl : Q -> Q.
Variable serialize_fragment : list onode -> jsstring.
Variable parse_fragment : jsstring -> list onode.

Variable range_left : nat -> nat -> Q.
Variable rect_left : world -> nat -> Q.
Variable rect_top : world -> nat -> Q.

(** X11: the element's children are the line spans and nothing else;
    there are never more lines than words; the span of line number [k]
    is a block with [data-index] [k], no margin and no annotation, and
    its children start with a word span and end with a word span, so no
    line begins or ends with a separator. *)
Theorem split_builds_line_spans (e : element) (opts : SplitTextOptions) :
  exists r w,
    splitText fl serialize_fragment parse_fragment
        range_left rect_left rect_top e opts = Some (r, w) /\
    el_children w = map Ref (res_lines r) /\
    length (res_lines r) <= length (res_words r) /\
    forall k lineSpan, res_lines r !! k = Some lineSpan ->
      exists cs x y,
        span_at w lineSpan =
          line_span (default "split-line" (lineClass opts)) k cs /\
        head cs = Some (Ref x) /\ last cs = Some (Ref y) /\
        x ∈ res_words r /\ y ∈ res_words r.
Proof.
  destruct (splitText_exact fl serialize_fragment parse_fragment
      range_left rect_left rect_top e opts)
    as (r & w5 & w & Hrun & Hex).
  exists r, w. split; [done|].
  destruct Hex as (Hrw & _ & Hrl & _ & _ & Hel & _ & _ & Hl & _).
  set (groups := detect_lines rect_top w5
                   (map word_id (built_from 0 (measureOriginalText range_left (kids e))))) in *.
  pose proof (detect_lines_line_ok rect_top w5
                (map word_id (built_from 0 (measureOriginalText range_left (kids e)))))
    as Hok.
  pose proof (detect_lines_concat rect_top w5
                (map word_id (built_from 0 (measureOriginalText range_left (kids e)))))
    as Hcat.
  fold groups in Hok, Hcat.
  split; [done|]. split.
  { rewrite Hrl, Hrw, length_seq, <- Hcat.
    apply length_concat_nonempty.
    eapply Forall_impl; [exact Hok|]. by intros [|x g]. }
  intros k l Hk. rewrite Hrl in Hk. apply lookup_seq in Hk as [-> Hlt].
  destruct (lookup_lt_is_Some_2 groups k) as [g Hg]; [done|].
  unfold span_at. rewrite (Hl _ _ Hg). cbn [default from_option id].
  assert (Hgok : line_ok rect_top w5 g).
  { rewrite Forall_forall in Hok. apply Hok. by eapply list_elem_of_lookup_2. }
  assert (Hin : forall z, z ∈ g -> z ∈ res_words r).
  { intros z Hz. rewrite Hrw, <- Hcat. apply elem_of_concat.
    exists g. split; [by eapply list_elem_of_lookup_2|done]. }
  destruct g as [|x g']; [done|].
  destruct (last (x :: g')) as [y|] eqn:Ey; [|by apply last_None in Ey].
  eexists _, x, y. split; [reflexivity|].
  split; [by rewrite head_interleave|]. split; [by rewrite last_interleave, Ey|].
  split; [apply Hin; by left|]. apply Hin.
  rewrite last_lookup in Ey. by eapply list_elem_of_lookup_2.
Qed.

(** X12: whitespace aside, the text of the element after the split is its
    text before the split: every character is there once, in order,
    however the words fell into lines. *)
Theorem split_keeps_text_modulo_whitespace (e : element) (opts : SplitTextOptions) :
  exists r w,
    splitText fl serialize_fragment parse_fragment
        range_left rect_left rect_top e opts = Some (r, w) /\
    forall fuel,
      strip_whitespace (el_textContent (3 + fuel) w) =
      strip_whitespace (textContent (kids e)).
Proof.
  destruct (splitText_exact fl serialize_fragment parse_fragment
      range_left rect_left rect_top e opts)
    as (r & w5 & w & Hrun & Hex).
  exists r, w. split; [done|]. intros fuel.
  destruct (split_exact_final _ _ _ _ _ _ _ _ _ _ Hex) as (Hsame & _).
  destruct Hex as (Hrw & _ & Hrl & _ & _ & Hel & (h2 & Hok & Hno & Hk) & _ & Hl & _).
  set (mws := measureOriginalText range_left (kids e)) in *.
  set (groups := detect_lines rect_top w5 (map word_id (built_from 0 mws))) in *.
  unfold el_textContent. rewrite Hel, Hrl.
  change (3 + fuel) with (S (S (S fuel))).
  rewrite (lines_text_stripped (S (S fuel)) w (noSpaceBeforeSet_of (built_from 0 mws))
             groups (next_after 0 mws)).
  2: { intros k g Hg. unfold span_at. by rewrite (Hl _ _ Hg). }
  unfold groups. rewrite detect_lines_concat.
  rewrite (words_text fuel mws 0 w).
  2: { eapply final_words_ok_of; [exact Hok|].
       intros id Hid. rewrite Hsame by done. by destruct (Hk id) as (Hs & _). }
  unfold mws, measureOriginalText, textContent.
  rewrite words_of_pushWord, emitted_scan_nodes.
  change (emitted mstate_init) with (@nil codeunit). cbn [app].
  apply strip_whitespace_idemp.
Qed.

End SplitLinesText.

(** ** Kerning and revert on their own *)

Section KerningAlone.

Variable fl : Q -> Q.

Variable rect_left : world -> nat -> Q.

(** X14: on any document and any span, the kerning step of a word returns
    normally and changes the store only; in the store no span changes its
    class, [data-index], display or children, and a span without an
    expected-gap annotation (a word span, a first character, a line span)
    is left exactly as it was. *)
Theorem compensate_word_only_kerns (wordSpan : nat) (w : world) :
  exists h',
    compensate_word fl rect_left wordSpan w = Some (tt, with_heap h' w) /\
    forall id,
      shape (span_at (with_heap h' w) id) = shape (span_at w id) /\
      (data_expectedGap (span_at w id) = None ->
       span_at (with_heap h' w) id = span_at w id).
Proof.
  destruct (compensate_word_effect fl rect_left wordSpan w) as (h' & Hrun & Hk & _).
  exists h'. split; [done|]. intros id. by destruct (Hk id) as (Hs & _ & Hg).
Qed.

End KerningAlone.

Section RevertAlone.

Variable fl : Q -> Q.
Variable serialize_fragment : list onode -> jsstring.
Variable parse_fragment : jsstring -> list onode.

Variable range_left : nat -> nat -> Q.
Variable rect_left : world -> nat -> Q.
Variable rect_top : world -> nat -> Q.

(** X15: a split changes no attribute but [aria-label]; reverting right
    after it leaves the element with the children that the snapshot of
    its original children parses into, with its original style, and with
    its original attributes less [aria-label], so an element that had no
    [aria-label] has its attributes exactly as they were, and one that
    had loses it. The spans that were built stay in the store. *)
Theorem split_then_revert (e : element) (opts : SplitTextOptions) :
  exists r w w1,
    splitText fl serialize_fragment parse_fragment
        range_left rect_left rect_top e opts = Some (r, w) /\
    (forall name, name <> "aria-label" -> el_attrs w !! name = attrs e !! name) /\
    revert r w = Some (tt, w1) /\
    el_children w1 = map Static (parse_fragment (serialize_fragment (kids e))) /\
    el_style w1 = style e /\
    el_attrs w1 = delete "aria-label" (attrs e) /\
    (attrs e !! "aria-label" = None -> el_attrs w1 = attrs e) /\
    heap w1 = heap w.
Proof.
  destruct (splitText_total fl serialize_fragment parse_fragment
      range_left rect_left rect_top e opts)
    as (r & w & Hrun & Hrev & Hattrs & Hstyle & _).
  eexists r, w, _. split; [done|]. split.
  { intros name Hne. rewrite Hattrs. by apply lookup_insert_ne. }
  rewrite Hrev. split; [reflexivity|]. cbn.
  split; [done|]. split; [done|].
  rewrite Hattrs, delete_insert_eq.
  split; [done|]. split; [|done].
  intros Hno. by apply delete_id.
Qed.

End RevertAlone.

(** ** The kerning measurements of the benchmark *)

Lemma entries_upto_step (fl : Q -> Q) (entry : nat -> option Q) j v km :
  entries_upto entry j km ->
  entry j = (if Qltb (fl (1 # 100)) (Qabs v) then Some v else None) ->
  entries_upto entry (S j) (record_kerning fl j v km).
Proof.
  intros Hkm Hj k. unfold record_kerning.
  destruct k as [|i].
  - destruct (Qltb _ _); [rewrite lookup_insert_ne by lia|]; apply (Hkm 0).
  - destruct (decide (i = j)) as [->|Hne].
    + replace (j <? S j) with true by (symmetry; apply Nat.ltb_lt; lia).
      rewrite Hj. destruct (Qltb _ _) eqn:E.
      * replace (j + 1) with (S j) by lia. apply lookup_insert_eq.
      * rewrite (Hkm (S j)). by rewrite Nat.ltb_irrefl.
    + replace (i <? S j) with (i <? j).
      2: { destruct (i <? j) eqn:E; symmetry.
           - apply Nat.ltb_lt in E. apply Nat.ltb_lt. lia.
           - apply Nat.ltb_ge in E. apply Nat.ltb_ge. lia. }
      destruct (Qltb _ _); [rewrite lookup_insert_ne by lia|]; apply (Hkm (S i)).
Qed.

Section BenchFacts.

Variable fl : Q -> Q.

Variable width : jsstring -> Q.

Lemma kerning_upto_step chars j c1 c2 km :
  chars !! j = Some c1 -> chars !! (j + 1) = Some c2 ->
  kerning_upto fl width chars j km ->
  kerning_upto fl width chars (S j)
    (record_kerning fl j (fl (fl (width (c1 ++ c2) - width c1) - width c2)) km).
Proof.
  intros H1 H2 Hkm. apply entries_upto_step; [done|].
  unfold kerning_at. by rewrite H1, H2.
Qed.

Lemma kerning_upto_all chars km :
  kerning_upto fl width chars (length chars - 1) km ->
  forall k, km !! k = match k with 0 => None | S i => kerning_at fl width chars i end.
Proof.
  intros H k. rewrite (H k). destruct k as [|i]; [done|].
  destruct (i <? length chars - 1) eqn:E; [done|].
  apply Nat.ltb_ge in E. unfold kerning_at.
  destruct (chars !! i); [|done].
  by rewrite (lookup_ge_None_2 chars (i + 1)) by lia.
Qed.

Lemma sequential_loop chars n : forall j km m,
  j + n <= length chars - 1 -> attached m = true ->
  kerning_upto fl width chars j km ->
  exists km' m',
    loop_from n j (sequential_step fl width chars) (km, m) = Some (km', m') /\
    attached m' = true /\ kerning_upto fl width chars (j + n) km'.
Proof.
  induction n as [|n IH]; intros j km m Hle Hat Hkm; cbn [loop_from].
  - exists km, m. by rewrite Nat.add_0_r.
  - destruct (lookup_lt_is_Some_2 chars j) as [c1 H1]; [lia|].
    destruct (lookup_lt_is_Some_2 chars (j + 1)) as [c2 H2]; [lia|].
    unfold sequential_step at 1. rewrite H1, H2.
    unfold measured_width, set_text. cbn [attached measurer_text]. rewrite Hat.
    destruct (IH (S j) (record_kerning fl j (fl (fl (width (c1 ++ c2) - width c1) - width c2)) km)
                {| attached := true; measurer_text := c2 |})
      as (km' & m' & Hrun & Hat' & Hkm'); [lia|done|by apply kerning_upto_step|].
    exists km', m'. rewrite Hrun. split; [done|]. split; [done|].
    by replace (j + S n) with (S j + n) by lia.
Qed.

Lemma canvas_loop chars n : forall j km,
  j + n <= length chars - 1 ->
  kerning_upto fl width chars j km ->
  exists km',
    loop_from n j (canvas_step fl width chars) km = Some km' /\
    kerning_upto fl width chars (j + n) km'.
Proof.
  induction n as [|n IH]; intros j km Hle Hkm; cbn [loop_from].
  - exists km. by rewrite Nat.add_0_r.
  - destruct (lookup_lt_is_Some_2 chars j) as [c1 H1]; [lia|].
    destruct (lookup_lt_is_Some_2 chars (j + 1)) as [c2 H2]; [lia|].
    unfold canvas_step at 1. rewrite H1, H2.
    destruct (IH (S j) (record_kerning fl j (fl (fl (width (c1 ++ c2) - width c1) - width c2)) km))
      as (km' & Hrun & Hkm'); [lia|by apply kerning_upto_step|].
    exists km'. rewrite Hrun. split; [done|].
    by replace (j + S n) with (S j + n) by lia.
Qed.

Lemma kerning_upto_0 chars : kerning_upto fl width chars 0 ∅.
Proof. intros [|i]; by rewrite lookup_empty. Qed.

Lemma short_has_no_kerning chars i : length chars < 2 -> kerning_at fl width chars i = None.
Proof.
  intros H. unfold kerning_at. destruct (chars !! i) eqn:E1; [|done].
  apply lookup_lt_Some in E1.
  by rewrite (lookup_ge_None_2 chars (i + 1)) by lia.
Qed.

(** The sequential measurement, in full. *)
Lemma sequential_result chars :
  exists km m,
    measureKerningDOMSequential fl width chars = Some (km, m) /\
    attached m = false /\
    forall k, km !! k = match k with 0 => None | S i => kerning_at fl width chars i end.
Proof.
  unfold measureKerningDOMSequential.
  destruct (length chars <? 2) eqn:E.
  - apply Nat.ltb_lt in E. exists ∅, new_measurer. split; [done|]. split; [done|].
    intros [|i]; rewrite lookup_empty; [done|]. by rewrite short_has_no_kerning.
  - apply Nat.ltb_ge in E.
    destruct (sequential_loop chars (length chars - 1) 0 ∅ (attach new_measurer))
      as (km & m & Hrun & Hat & Hkm); [lia|done|apply kerning_upto_0|].
    rewrite Hrun. unfold detach. rewrite Hat. eexists km, _. split; [done|].
    split; [done|]. by apply kerning_upto_all.
Qed.

End BenchFacts.


Lemma elem_of_unique_from (l : list jsstring) : forall seen c,
  c ∈ unique_from seen l <-> c ∈ l /\ c ∉ seen.
Proof.
  induction l as [|x l IH]; intros seen c; cbn [unique_from].
  - split; [by intros ?%elem_of_nil|by intros [?%elem_of_nil _]].
  - destruct (decide (x ∈ seen)) as [Hin|Hnin].
    + rewrite IH, elem_of_cons. split; [tauto|].
      intros [[->|?] ?]; [done|tauto].
    + rewrite elem_of_cons, IH, elem_of_cons, elem_of_union, elem_of_singleton.
      split.
      * intros [->|[? ?]]; [tauto|]. split; [tauto|]. tauto.
      * intros [[->|?] ?]; [tauto|]. destruct (decide (c = x)); tauto.
Qed.

Section BenchOptimized.

Variable fl : Q -> Q.

Variable width : jsstring -> Q.

Lemma measure_unique_fold (l : list jsstring) : forall cw m,
  attached m = true ->
  exists cw' m',
    fold_left (measure_unique width) l (cw, m) = (cw', m') /\
    attached m' = true /\
    forall c, cw' !! c = if decide (c ∈ l) then Some (width c) else cw !! c.
Proof.
  induction l as [|x l IH]; intros cw m Hat; cbn [fold_left].
  - exists cw, m. split; [done|]. split; [done|]. intros c.
    destruct (decide (c ∈ [])) as [H|_]; [by apply elem_of_nil in H|done].
  - unfold measure_unique at 2. unfold measured_width, set_text.
    cbn [attached measurer_text]. rewrite Hat.
    destruct (IH (<[x := width x]> cw) {| attached := true; measurer_text := x |})
      as (cw' & m' & Hrun & Hat' & Hcw); [done|].
    exists cw', m'. split; [done|]. split; [done|]. intros c. rewrite Hcw.
    destruct (decide (c ∈ l)) as [Hin|Hnin].
    + rewrite decide_True; [done|by apply elem_of_cons; right].
    + destruct (decide (c = x)) as [->|Hne].
      * rewrite lookup_insert_eq. rewrite decide_True; [done|by apply elem_of_cons; left].
      * rewrite lookup_insert_ne by done.
        rewrite decide_False; [done|]. by intros [?|?]%elem_of_cons.
Qed.

Lemma optimized_loop chars cw n : forall j km m,
  (forall c, c ∈ chars -> cw !! c = Some (width c)) ->
  j + n <= length chars - 1 -> attached m = true ->
  kerning_upto fl width chars j km ->
  exists km' m',
    loop_from n j (optimized_step fl width chars cw) (km, m) = Some (km', m') /\
    attached m' = true /\ kerning_upto fl width chars (j + n) km'.
Proof.
  induction n as [|n IH]; intros j km m Hcw Hle Hat Hkm; cbn [loop_from].
  - exists km, m. by rewrite Nat.add_0_r.
  - destruct (lookup_lt_is_Some_2 chars j) as [c1 H1]; [lia|].
    destruct (lookup_lt_is_Some_2 chars (j + 1)) as [c2 H2]; [lia|].
    unfold optimized_step at 1. rewrite H1, H2.
    rewrite (Hcw c1) by (by eapply list_elem_of_lookup_2).
    rewrite (Hcw c2) by (by eapply list_elem_of_lookup_2).
    unfold measured_width, set_text. cbn [attached measurer_text]. rewrite Hat.
    destruct (IH (S j) (record_kerning fl j (fl (fl (width (c1 ++ c2) - width c1) - width c2)) km)
                {| attached := true; measurer_text := c1 ++ c2 |})
      as (km' & m' & Hrun & Hat' & Hkm'); [done|lia|done|by apply kerning_upto_step|].
    exists km', m'. rewrite Hrun. split; [done|]. split; [done|].
    by replace (j + S n) with (S j + n) by lia.
Qed.

(** The optimized measurement, in full. *)
Lemma optimized_result chars :
  exists km m,
    measureKerningDOMOptimized fl width chars = Some (km, m) /\
    attached m = false /\
    forall k, km !! k = match k with 0 => None | S i => kerning_at fl width chars i end.
Proof.
  unfold measureKerningDOMOptimized.
  destruct (length chars <? 2) eqn:E.
  - apply Nat.ltb_lt in E. exists ∅, new_measurer. split; [done|]. split; [done|].
    intros [|i]; rewrite lookup_empty; [done|]. by rewrite short_has_no_kerning.
  - apply Nat.ltb_ge in E.
    destruct (measure_unique_fold (unique_from ∅ chars) ∅ (attach new_measurer))
      as (cw & m1 & Hfold & Hat1 & Hcw); [done|].
    cbn zeta. rewrite Hfold.
    destruct (optimized_loop chars cw (length chars - 1) 0 ∅ m1)
      as (km & m & Hrun & Hat & Hkm); [|lia|done|apply kerning_upto_0|].
    { intros c Hc. rewrite Hcw. rewrite decide_True; [done|].
      apply elem_of_unique_from. split; [done|]. apply not_elem_of_empty. }
    rewrite Hrun. unfold detach. rewrite Hat. eexists km, _. split; [done|].
    split; [done|]. by apply kerning_upto_all.
Qed.

End BenchOptimized.

Section BenchResults.

Variable fl : Q -> Q.

Variable width : jsstring -> Q.

(** X16: [measureKerningDOMSequential] never throws, takes its measurer
    out of the element again, and its map holds at [i + 1] the kerning of
    [chars[i]] and [chars[i + 1]], the double
    [pairWidth - char1Width - char2Width], exactly when its absolute value
    exceeds the double [0.01]; nothing is stored at 0 or past the last
    character. *)
Theorem sequential_kerning_map (chars : list jsstring) :
  exists km m,
    measureKerningDOMSequential fl width chars = Some (km, m) /\
    attached m = false /\
    km !! 0 = None /\
    (forall i, km !! (S i) = kerning_at fl width chars i) /\
    (forall k, length chars <= k -> km !! k = None).
Proof.
  destruct (sequential_result fl width chars) as (km & m & Hrun & Hat & Hkm).
  exists km, m. split; [done|]. split; [done|]. split; [apply (Hkm 0)|].
  split; [intros i; apply (Hkm (S i))|].
  intros [|i] Hk; rewrite Hkm; [done|]. unfold kerning_at.
  destruct (chars !! i); [|done].
  by rewrite (lookup_ge_None_2 chars (i + 1)) by lia.
Qed.

(** X17: [measureKerningDOMOptimized], which measures each distinct
    character once, returns the same kerning map as
    [measureKerningDOMSequential], and also leaves its measurer out of
    the element. *)
Theorem optimized_agrees_with_sequential (chars : list jsstring) :
  exists km m m',
    measureKerningDOMOptimized fl width chars = Some (km, m) /\
    measureKerningDOMSequential fl width chars = Some (km, m') /\
    attached m = false /\ attached m' = false.
Proof.
  destruct (sequential_result fl width chars) as (km' & m' & Hrun' & Hat' & Hkm').
  destruct (optimized_result fl width chars) as (km & m & Hrun & Hat & Hkm).
  exists km, m, m'. split; [done|]. split; [|done].
  rewrite Hrun'. do 2 f_equal. apply map_eq. intros k. by rewrite Hkm, Hkm'.
Qed.

(** X18: given its 2D context, [measureKerningCanvas] runs to the end and
    stores at [i + 1] the kerning of [chars[i]] and [chars[i + 1]] by the
    canvas's text metrics, exactly when its absolute value exceeds the
    double [0.01]; nothing is stored at 0. *)
Theorem canvas_kerning_map (chars : list jsstring) :
  exists km,
    measureKerningCanvas fl width chars = Some km /\
    forall k, km !! k = match k with 0 => None | S i => kerning_at fl width chars i end.
Proof.
  unfold measureKerningCanvas.
  destruct (length chars <? 2) eqn:E.
  - apply Nat.ltb_lt in E. exists ∅. split; [done|].
    intros [|i]; rewrite lookup_empty; [done|]. by rewrite short_has_no_kerning.
  - apply Nat.ltb_ge in E.
    destruct (canvas_loop fl width chars (length chars - 1) 0 ∅)
      as (km & Hrun & Hkm); [lia|apply kerning_upto_0|].
    exists km. split; [done|]. by apply kerning_upto_all.
Qed.

End BenchResults.


(** ** The range measurements *)

Lemma offset_of_S (chars : list jsstring) j c :
  chars !! j = Some c -> offset_of chars (S j) = offset_of chars j + length c.
Proof.
  intros H. unfold offset_of. rewrite (take_S_r _ _ _ H), concat_app, length_app.
  cbn [concat]. by rewrite app_nil_r.
Qed.

Section BenchRangeFacts.

Variable fl : Q -> Q.

Variable range_rect_left range_rect_right : nat -> nat -> Q.

Local Abbreviation gap := (gap_at fl range_rect_left range_rect_right).

Lemma range_loop chars wrapper n : forall j km,
  attached wrapper = true ->
  j + n <= length chars - 1 ->
  entries_upto (gap chars) j km ->
  exists km' offset',
    loop_from n j (range_step fl range_rect_left range_rect_right chars wrapper)
      (km, offset_of chars j) = Some (km', offset') /\
    entries_upto (gap chars) (j + n) km'.
Proof.
  induction n as [|n IH]; intros j km Hat Hle Hkm; cbn [loop_from].
  - exists km, (offset_of chars j). by rewrite Nat.add_0_r.
  - destruct (lookup_lt_is_Some_2 chars j) as [c1 H1]; [lia|].
    destruct (lookup_lt_is_Some_2 chars (j + 1)) as [c2 H2]; [lia|].
    unfold range_step at 1. rewrite H1, H2.
    unfold rect_left_of, rect_right_of. rewrite Hat.
    rewrite <- (offset_of_S chars j c1 H1).
    edestruct (IH (S j)) as (km' & off' & Hrun & Hkm'); [done|lia| |].
    2: { exists km', off'. rewrite Hrun. split; [done|].
         by replace (j + S n) with (S j + n) by lia. }
    apply entries_upto_step; [done|].
    unfold gap_at. rewrite H1, H2. cbn zeta.
    rewrite Nat.add_1_r. by rewrite (offset_of_S chars j c1 H1).
Qed.

Lemma range_result chars :
  exists km m,
    measureKerningRange fl range_rect_left range_rect_right chars = Some (km, m) /\
    attached m = false /\
    forall k, km !! k = match k with 0 => None | S i => gap chars i end.
Proof.
  unfold measureKerningRange.
  destruct (length chars <? 2) eqn:E.
  - apply Nat.ltb_lt in E. exists ∅, new_measurer. split; [done|]. split; [done|].
    intros [|i]; rewrite lookup_empty; [done|]. unfold gap_at.
    destruct (chars !! i) eqn:E1; [|done]. apply lookup_lt_Some in E1.
    by rewrite (lookup_ge_None_2 chars (i + 1)) by lia.
  - apply Nat.ltb_ge in E. cbn zeta.
    destruct (range_loop chars (attach (set_text (concat chars) new_measurer))
                (length chars - 1) 0 ∅)
      as (km & off & Hrun & Hkm); [done|lia|by intros [|i]; rewrite lookup_empty|].
    change (offset_of chars 0) with 0 in Hrun. rewrite Hrun.
    eexists km, _. split; [done|]. split; [done|].
    intros k. rewrite (Hkm k). destruct k as [|i]; [done|].
    destruct (i <? 0 + (length chars - 1)) eqn:E'; [done|].
    apply Nat.ltb_ge in E'. unfold gap_at.
    destruct (chars !! i); [|done].
    by rewrite (lookup_ge_None_2 chars (i + 1)) by lia.
Qed.

Lemma positions_loop chars wrapper n : forall j positions,
  attached wrapper = true ->
  j + n <= length chars ->
  length positions = j ->
  (forall i c, i < j -> chars !! i = Some c ->
     positions !! i = Some (range_rect_left (offset_of chars i) (offset_of chars i + length c))) ->
  exists positions' offset',
    loop_from n j (positions_step range_rect_left chars wrapper)
      (positions, offset_of chars j) = Some (positions', offset') /\
    forall i c, i < j + n -> chars !! i = Some c ->
      positions' !! i = Some (range_rect_left (offset_of chars i) (offset_of chars i + length c)).
Proof.
  induction n as [|n IH]; intros j ps Hat Hle Hlen Hps; cbn [loop_from].
  - exists ps, (offset_of chars j). split; [done|]. intros i c Hi. apply Hps. lia.
  - destruct (lookup_lt_is_Some_2 chars j) as [c1 H1]; [lia|].
    unfold positions_step at 1. rewrite H1.
    unfold rect_left_of. rewrite Hat.
    rewrite <- (offset_of_S chars j c1 H1).
    edestruct (IH (S j)) as (ps' & off' & Hrun & Hps'); [done|lia| | |].
    3: { exists ps', off'. rewrite Hrun. split; [done|].
         intros i c Hi. apply Hps'. lia. }
    + rewrite length_app. cbn [length]. lia.
    + intros i c Hi Hc. destruct (decide (i = j)) as [->|Hne].
      * rewrite lookup_app_r by lia. rewrite Hlen, Nat.sub_diag. cbn.
        rewrite H1 in Hc. injection Hc as <-.
        by rewrite (offset_of_S chars j c1 H1).
      * rewrite lookup_app_l by lia. apply Hps; [lia|done].
Qed.

Lemma prefix_loop chars wrapper positions n : forall j km,
  attached wrapper = true ->
  (forall i c, chars !! i = Some c ->
     range_rect_right 0 (offset_of chars i + length c)
     = range_rect_right (offset_of chars i) (offset_of chars i + length c)) ->
  (forall i c, chars !! i = Some c ->
     positions !! i = Some (range_rect_left (offset_of chars i) (offset_of chars i + length c))) ->
  j + n <= length chars - 1 ->
  entries_upto (gap chars) j km ->
  exists km',
    loop_from n j (prefix_step fl range_rect_right chars wrapper positions) km = Some km' /\
    entries_upto (gap chars) (j + n) km'.
Proof.
  induction n as [|n IH]; intros j km Hat Hright Hps Hle Hkm; cbn [loop_from].
  - exists km. by rewrite Nat.add_0_r.
  - destruct (lookup_lt_is_Some_2 chars j) as [c1 H1]; [lia|].
    destruct (lookup_lt_is_Some_2 chars (j + 1)) as [c2 H2]; [lia|].
    unfold prefix_step at 1. rewrite (Hps (j + 1) c2 H2).
    unfold rect_right_of. rewrite Hat.
    edestruct (IH (S j)) as (km' & Hrun & Hkm'); [done|done|done|lia| |].
    2: { exists km'. rewrite Hrun. split; [done|].
         by replace (j + S n) with (S j + n) by lia. }
    apply entries_upto_step; [done|].
    unfold gap_at. rewrite H1, H2. cbn zeta.
    change (length (concat (take (j + 1) chars))) with (offset_of chars (j + 1)).
    rewrite Nat.add_1_r, (offset_of_S chars j c1 H1).
    by rewrite (Hright j c1 H1).
Qed.

(** X20: [measureKerningRange] never throws, takes its wrapper out of the
    element again, and stores at [i + 1] the gap between the right edge of
    [chars[i]] and the left edge of [chars[i + 1]], each at its offset in
    the joined text, exactly when the absolute value of the gap exceeds
    the double [0.01]. *)
Theorem range_kerning_map (chars : list jsstring) :
  exists km m,
    measureKerningRange fl range_rect_left range_rect_right chars = Some (km, m) /\
    attached m = false /\
    km !! 0 = None /\
    (forall i, km !! (S i) = gap chars i) /\
    (forall k, length chars <= k -> km !! k = None).
Proof.
  destruct (range_result chars) as (km & m & Hrun & Hat & Hkm).
  exists km, m. split; [done|]. split; [done|]. split; [apply (Hkm 0)|].
  split; [intros i; apply (Hkm (S i))|].
  intros [|i] Hk; rewrite Hkm; [done|]. unfold gap_at.
  destruct (chars !! i); [|done].
  by rewrite (lookup_ge_None_2 chars (i + 1)) by lia.
Qed.

(** X21: The variant that measures the right edge of a character with a
    range from the start of the text returns the same map as the variant
    that measures it with a range around the character, when the two
    ranges have the same right edge. *)
Theorem prefix_ranges_agree_with_char_ranges (chars : list jsstring)
    (Hright : forall i c, chars !! i = Some c ->
       range_rect_right 0 (offset_of chars i + length c)
       = range_rect_right (offset_of chars i) (offset_of chars i + length c)) :
  exists km m,
    measureKerningRange_prefix fl range_rect_left range_rect_right chars = Some (km, m) /\
    measureKerningRange fl range_rect_left range_rect_right chars = Some (km, m).
Proof.
  destruct (range_result chars) as (km' & m' & Hrun' & Hat' & Hkm').
  exists km', m'. split; [|done].
  revert Hrun'. unfold measureKerningRange_prefix, measureKerningRange.
  destruct (length chars <? 2) eqn:E; [done|].
  apply Nat.ltb_ge in E. cbn zeta.
  set (wrapper := attach (set_text (concat chars) new_measurer)).
  destruct (positions_loop chars wrapper (length chars) 0 [])
    as (ps & off & Hpos & Hps); [done|lia|done|intros; lia|].
  change (offset_of chars 0) with 0 in Hpos. rewrite Hpos.
  destruct (prefix_loop chars wrapper ps (length chars - 1) 0 ∅)
    as (km & Hrun & Hkm); [done|done| |lia|by intros [|i]; rewrite lookup_empty|].
  { intros i c Hc. apply Hps; [|done]. apply lookup_lt_Some in Hc. lia. }
  rewrite Hrun.
  subst wrapper. cbn [detach attach attached].
  destruct (loop_from _ _ (range_step _ _ _ _ _) _) as [[km2 off2]|]; [|done].
  intros [= <- <-]. do 2 f_equal.
  apply map_eq. intros k. rewrite (Hkm k), Hkm'. destruct k as [|i]; [done|].
  destruct (i <? 0 + (length chars - 1)) eqn:E'; [done|].
  apply Nat.ltb_ge in E'. unfold gap_at.
  destruct (chars !! i); [|done].
  by rewrite (lookup_ge_None_2 chars (i + 1)) by lia.
Qed.

End BenchRangeFacts.

Lemma prefix_ranges_witness :
  exists km m,
    measureKerningRange_prefix binary64 (fun s _ => inject_Z (Z.of_nat (10 * s)))
      (fun _ e => inject_Z (Z.of_nat (10 * e - 1))) [[97%N]; [98%N; 99%N]; [100%N]]
    = Some (km, m) /\
    measureKerningRange binary64 (fun s _ => inject_Z (Z.of_nat (10 * s)))
      (fun _ e => inject_Z (Z.of_nat (10 * e - 1))) [[97%N]; [98%N; 99%N]; [100%N]]
    = Some (km, m).
Proof.
  apply (prefix_ranges_agree_with_char_ranges binary64
           (fun s _ => inject_Z (Z.of_nat (10 * s)))
           (fun _ e => inject_Z (Z.of_nat (10 * e - 1))) [[97%N]; [98%N; 99%N]; [100%N]]).
  intros i c _. reflexivity.
Defined.


(** ** The viewport observer of the React component *)

Lemma observe_once_latched calls : forall st,
  Forall (fun call => isOnce (fst call) = true) calls ->
  isInView st = true -> hasTriggeredOnce st = true ->
  observe calls st = st.
Proof.
  induction calls as [|[p es] calls IH]; intros st Hall Hv Ht; [done|].
  apply Forall_cons in Hall as [Hp Hall]. cbn [fst] in Hp.
  unfold observe. cbn [fold_left fst snd].
  assert (observer_callback p es st = st) as ->; [|by apply IH].
  unfold observer_callback. destruct es as [|[|] es]; [done| |].
  - by rewrite Hp, Ht.
  - by rewrite Hp.
Qed.

(** X22: With [once], the view state is a latch: [isInView] is true
    exactly when some call of the observer so far had an intersecting
    first entry, and leaving the viewport never resets it. *)
Theorem once_view_is_a_latch (calls : list (option inViewProp * list bool))
    (Honce : Forall (fun call => isOnce (fst call) = true) calls) :
  isInView (observe calls view_init) = existsb enters calls /\
  hasTriggeredOnce (observe calls view_init) = existsb enters calls.
Proof.
  induction calls as [|[p es] calls IH]; [done|].
  pose proof Honce as Hall.
  apply Forall_cons in Hall as [Hp Hall]. cbn [fst] in Hp.
  unfold observe. cbn [fold_left fst snd existsb].
  destruct es as [|[|] es].
  - apply IH, Hall.
  - unfold observer_callback, enters. cbn [snd]. rewrite Hp. cbn.
    change (fold_left _ calls ?s) with (observe calls s).
    by rewrite observe_once_latched.
  - unfold observer_callback, enters. cbn [snd]. rewrite Hp. cbn.
    apply IH, Hall.
Qed.

Lemma observe_follows calls : forall st,
  Forall (fun call => isOnce (fst call) = false) calls ->
  isInView (observe calls st) = last_seen calls (isInView st).
Proof.
  induction calls as [|[p es] calls IH]; intros st Hall; [done|].
  apply Forall_cons in Hall as [Hp Hall]. cbn [fst] in Hp.
  unfold observe. cbn [fold_left fst snd last_seen].
  change (fold_left _ calls ?s) with (observe calls s).
  rewrite IH by done. unfold observer_callback.
  destruct es as [|[|] es]; [done| |]; by rewrite Hp.
Qed.

(** X23: Without [once], [isInView] follows the viewport: after any calls
    of the observer it is the [isIntersecting] of the first entry of the
    last call that had an entry. *)
Theorem view_follows_last_entry (calls : list (option inViewProp * list bool))
    (Hnot : Forall (fun call => isOnce (fst call) = false) calls) :
  isInView (observe calls view_init) = last_seen calls false.
Proof. by apply observe_follows. Qed.

(** X24: However the [inView] prop changes between calls, the element is
    never in view without [hasTriggeredOnceRef] being set. *)
Theorem in_view_implies_triggered (calls : list (option inViewProp * list bool)) :
  isInView (observe calls view_init) = true ->
  hasTriggeredOnce (observe calls view_init) = true.
Proof.
  assert (forall st, (isInView st = true -> hasTriggeredOnce st = true) ->
            isInView (observe calls st) = true ->
            hasTriggeredOnce (observe calls st) = true) as H; [|by apply H].
  induction calls as [|[p es] calls IH]; intros st Hst; [done|].
  unfold observe. cbn [fold_left fst snd].
  change (fold_left _ calls ?s) with (observe calls s).
  apply IH. unfold observer_callback.
  destruct es as [|[|] es]; [done| |].
  - by destruct (isOnce p && hasTriggeredOnce st).
  - by destruct (negb (isOnce p)).
Qed.

Lemma once_view_witness :
  isInView (observe [(Some (InViewObject (mkInViewOptions None None (Some true))), [false]);
                     (Some (InViewObject (mkInViewOptions None None (Some true))), [true; false]);
                     (Some (InViewObject (mkInViewOptions None None (Some true))), [false])]
              view_init) = true.
Proof.
  apply (once_view_is_a_latch
           [(Some (InViewObject (mkInViewOptions None None (Some true))), [false]);
            (Some (InViewObject (mkInViewOptions None None (Some true))), [true; false]);
            (Some (InViewObject (mkInViewOptions None None (Some true))), [false])]).
  repeat constructor.
Defined.

Lemma view_follows_witness :
  isInView (observe [(Some (InViewFlag true), [true]);
                     (Some (InViewObject (mkInViewOptions None None None)), []);
                     (Some (InViewFlag true), [false; true])]
              view_init) = false.
Proof.
  apply (view_follows_last_entry
           [(Some (InViewFlag true), [true]);
            (Some (InViewObject (mkInViewOptions None None None)), []);
            (Some (InViewFlag true), [false; true])]).
  repeat constructor.
Defined.

Lemma in_view_witness :
  hasTriggeredOnce (observe [(Some (InViewFlag true), [true])] view_init) = true.
Proof.
  apply (in_view_implies_triggered [(Some (InViewFlag true), [true])]).
  reflexivity.
Defined.
